(** * Contrastive label proximity analysis of [explore_text_on_maps.ipynb]

    A shallow embedding of the three computational cells of the notebook
    (the proximity loop filling [adjacent_text] / [other_text], the
    frequency and probability tables, and [proportional_difference]) and
    the properties of the written specification checked against them.

    Conventions.
    - Python [str] is [string]; Python [int] is [Z]; Python [float] is [Q],
      so [/] and [-] are exact (rounding is not modelled).
    - A Python [dict] is an association list in insertion order, updated
      in place by [dict_set]; iteration order is list order.
    - A raised exception is the [Raise] branch of [result].
    - The cells are given twice: as functions of the values they read, and
      as programs over a store of objects, where [list.extend] and item
      assignment update an object in place. *)

From Stdlib Require Import List String Ascii Bool ZArith QArith Lia.
From Stdlib Require Import Sorted Permutation Lqa.
From ExtLib Require Import Structures.Monad Structures.MonadState.
From ExtLib Require Import Structures.MonadExc Data.Monads.StateMonad.
Import ListNotations.
Import MonadNotation.

Local Open Scope Z_scope.

(** ** Python values used by the notebook *)

Module Py.

Inductive exn : Type :=
| ZeroDivisionError
| TypeError
| NameError.

Inductive result (A : Type) : Type :=
| Ok (a : A)
| Raise (e : exn).
Arguments Ok {A} a.
Arguments Raise {A} e.

Definition result_bind {A B : Type} (r : result A) (k : A -> result B)
  : result B :=
  match r with
  | Ok a => k a
  | Raise e => Raise e
  end.

Definition result_catch {A : Type} (r : result A) (h : exn -> result A)
  : result A :=
  match r with
  | Ok a => Ok a
  | Raise e => h e
  end.

Definition dict (V : Type) : Type := list (string * V).

Definition keys {V : Type} (d : dict V) : list string := map fst d.
Definition values {V : Type} (d : dict V) : list V := map snd d.
Definition items {V : Type} (d : dict V) : list (string * V) := d.

(** [d.get(k, default)] *)
Fixpoint dict_get {V : Type} (d : dict V) (k : string) (default : V) : V :=
  match d with
  | [] => default
  | (k', v) :: d' => if String.eqb k k' then v else dict_get d' k default
  end.

(** [d[k] = v]: an existing key keeps its position, a new key goes last. *)
Fixpoint dict_set {V : Type} (d : dict V) (k : string) (v : V) : dict V :=
  match d with
  | [] => [(k, v)]
  | (k', v') :: d' =>
      if String.eqb k k' then (k', v) :: d' else (k', v') :: dict_set d' k v
  end.

(** [collections.Counter(xs)]: one increment per element, left to right. *)
Definition Counter (xs : list string) : dict Z :=
  fold_left (fun c x => dict_set c x (dict_get c x 0 + 1)) xs [].

(** [sum(xs)] over ints and over floats: starts at 0, adds left to right. *)
Definition sum (xs : list Z) : Z := fold_left Z.add xs 0.
Definition fsum (xs : list Q) : Q := fold_left Qplus xs (0%Q).

(** True division [a / b] of two ints. *)
Definition truediv (a b : Z) : result Q :=
  if b =? 0 then Raise ZeroDivisionError
  else Ok (inject_Z a / inject_Z b)%Q.

(** Stable ascending insertion into a list sorted by [key]: the new
    element passes only elements whose key is strictly smaller. *)
Fixpoint insert_by {A : Type} (key : A -> Q) (x : A) (l : list A) : list A :=
  match l with
  | [] => [x]
  | y :: l' =>
      if Qle_bool (key x) (key y) then x :: y :: l'
      else y :: insert_by key x l'
  end.

Definition sort_by {A : Type} (key : A -> Q) (l : list A) : list A :=
  fold_right (insert_by key) [] l.

(** [sorted(l, key=key, reverse=reverse)].  As in CPython, a reversed sort
    reverses the input, sorts it ascending and stable, and reverses the
    result. *)
Definition sorted {A : Type} (key : A -> Q) (reverse : bool) (l : list A)
  : list A :=
  if reverse then rev (sort_by key (rev l)) else sort_by key l.

End Py.

Import Py.

#[export] Instance Monad_result : Monad result :=
  {| ret := @Ok; bind := @result_bind |}.

#[export] Instance Exc_result : MonadExc exn result :=
  {| raise := @Raise; catch := @result_catch |}.

Local Open Scope monad_scope.

(** ** Frequency and probability tables (cells 172-173 and 183-184) *)

Section Tables.

(** [str.lower]; the Unicode case tables are not part of the notebook. *)
Variable str_lower : string -> string.

(** [Counter([i.lower() for i in labels])] *)
Definition text_freq (labels : list string) : dict Z :=
  Counter (map str_lower labels).

(** [{k: v / sum(freq.values()) for k, v in freq.items()}]: the quotient
    is evaluated once per item, so the division is reached only when there
    is an item. *)
Fixpoint prob_comprehension (its : list (string * Z)) (freq : dict Z)
    (acc : dict Q) : result (dict Q) :=
  match its with
  | [] => ret acc
  | (k, v) :: rest =>
      q <- truediv v (sum (values freq)) ;;
      prob_comprehension rest freq (dict_set acc k q)
  end.

Definition text_prob (freq : dict Z) : result (dict Q) :=
  prob_comprehension (items freq) freq [].

Definition build_tables (labels : list string)
  : result (dict Z * dict Q) :=
  let freq := text_freq labels in
  prob <- text_prob freq ;;
  ret (freq, prob).

End Tables.

(** ASCII instance of [str.lower], used for the worked scenarios. *)
Definition ascii_lower (c : ascii) : ascii :=
  let n := nat_of_ascii c in
  if andb (Nat.leb 65 n) (Nat.leb n 90) then ascii_of_nat (n + 32) else c.

Fixpoint lower (s : string) : string :=
  match s with
  | EmptyString => EmptyString
  | String c s' => String (ascii_lower c) (lower s')
  end.

(** ** Contrastive ranking (cell 206) *)

(** [{w: f(w) for w in ks}] *)
Definition dict_comprehension {V : Type} (f : string -> V) (ks : list string)
  : dict V :=
  fold_left (fun d w => dict_set d w (f w)) ks [].

Definition difference (prob_a prob_b : dict Q) (w : string) : Q :=
  (dict_get prob_a w 0 - dict_get prob_b w 0)%Q.

(** [sorted({w: a.get(w,0) - b.get(w,0) for w in b.keys()}.items(),
            key=lambda x: x[1], reverse=True)] *)
Definition rank_difference (prob_a prob_b : dict Q) : list (string * Q) :=
  sorted snd true
    (items (dict_comprehension (difference prob_a prob_b) (keys prob_b))).

Definition proportional_difference
    (building_text_prob other_text_prob : dict Q) : list (string * Q) :=
  rank_difference building_text_prob other_text_prob.

(** ** Notions used in the statements *)

(** One step of [Counter]: [c[x] = c.get(x, 0) + 1]. *)
Definition count_step (c : dict Z) (x : string) : dict Z :=
  dict_set c x (dict_get c x 0 + 1).

(** Number of elements of [xs] equal to [k]. *)
Definition occurrences (k : string) (xs : list string) : Z :=
  Z.of_nat (List.length (filter (String.eqb k) xs)).

Definition normalise (total : Z) (e : string * Z) : string * Q :=
  (fst e, (inject_Z (snd e) / inject_Z total)%Q).

Arguments sum : simpl never.
Arguments fsum : simpl never.

(** Number of labels whose lowercased form is [k]. *)
Definition lowered_occurrences (str_lower : string -> string) (k : string)
    (labels : list string) : Z :=
  Z.of_nat
    (List.length (filter (fun l => String.eqb k (str_lower l)) labels)).

(** Two ASCII strings that differ only in the case of their letters,
    stated without reference to [lower]. *)
Definition upper_of (c1 c2 : ascii) : bool :=
  let n1 := nat_of_ascii c1 in
  (Nat.leb 65 n1 && Nat.leb n1 90 && Nat.eqb (nat_of_ascii c2) (n1 + 32))%bool.

Definition same_letter (c1 c2 : ascii) : bool :=
  (Ascii.eqb c1 c2 || upper_of c1 c2 || upper_of c2 c1)%bool.

Fixpoint same_ignoring_case (s1 s2 : string) : bool :=
  match s1, s2 with
  | EmptyString, EmptyString => true
  | String c1 s1', String c2 s2' =>
      (same_letter c1 c2 && same_ignoring_case s1' s2')%bool
  | _, _ => false
  end.

Definition all_ascii : list ascii := map ascii_of_nat (seq 0 256).

(** Orders on the sort key, and the entries whose key has the value [v]. *)
Definition ascending {A : Type} (key : A -> Q) (a b : A) : Prop :=
  (key a <= key b)%Q.
Definition descending {A : Type} (key : A -> Q) (a b : A) : Prop :=
  (key b <= key a)%Q.
Definition with_key {A : Type} (key : A -> Q) (v : Q) (e : A) : bool :=
  Qeq_bool (key e) v.

(** ** Geometry (geopandas / shapely)

    The notebook uses three operations of the geometry library:
    [to_crs(epsg=27700)], [.centroid] and [.distance(point)], the last one
    only in the comparison [g.distance(p) <= d], which is
    [geom_distance_le g p d].  They are an interface here; distances are
    compared exactly. *)

Definition Point : Type := (Q * Q)%type.

Class Geometry (G : Type) : Type := {
  geom_to_crs : G -> G;
  geom_centroid : G -> Point;
  geom_distance_le : G -> Point -> Q -> bool
}.

(** Squared Euclidean distance of two points, and [|pq| <= d]. *)
Definition dist2 (p q : Point) : Q :=
  ((fst p - fst q) * (fst p - fst q) + (snd p - snd q) * (snd p - snd q))%Q.

Definition euclid_le (p q : Point) (d : Q) : bool :=
  Qle_bool 0 d && Qle_bool (dist2 p q) (d * d).

(** Planar shapes with exact coordinates in metres: a point, and an
    axis-parallel rectangle (the polygon around a piece of text).  The
    distance from a polygon to a point is the distance from its nearest
    point, zero inside; distances are compared by their squares. *)
Inductive shape : Type :=
| PointShape (p : Point)
| BoxShape (lo hi : Point).

(** Distance from the interval [lo, hi] to the coordinate [x]. *)
Definition gap (lo hi x : Q) : Q :=
  if Qle_bool lo x then (if Qle_bool x hi then 0 else x - hi)%Q
  else (lo - x)%Q.

(** Squared distance from the point of the shape nearest to [p]. *)
Definition shape_dist2 (g : shape) (p : Point) : Q :=
  match g with
  | PointShape q => dist2 q p
  | BoxShape lo hi =>
      let dx := gap (fst lo) (fst hi) (fst p) in
      let dy := gap (snd lo) (snd hi) (snd p) in
      (dx * dx + dy * dy)%Q
  end.

Definition shape_centroid (g : shape) : Point :=
  match g with
  | PointShape q => q
  | BoxShape lo hi =>
      (((fst lo + fst hi) / 2)%Q, ((snd lo + snd hi) / 2)%Q)
  end.

#[export] Instance shape_Geometry : Geometry shape :=
  {| geom_to_crs := fun g => g;
     geom_centroid := shape_centroid;
     geom_distance_le := fun g p d =>
       Qle_bool 0 d && Qle_bool (shape_dist2 g p) (d * d) |}.

(** ** Spatial proximity loop (cell 148-160) *)

(** A row of [predictions]: [row['predicted_label']] and [row.centroid]. *)
Record patch_row : Type := {
  predicted_label : string;
  centroid : Point
}.

(** A row of [spotted_text]: [.text] and the active geometry column. *)
Record text_row (G : Type) : Type := {
  text : string;
  geometry : G
}.
Arguments text {G} _.
Arguments geometry {G} _.

Section Partitioner.

Context {G : Type} `{Geometry G}.

(** The mask
    [spotted_text.to_crs(epsg=27700).distance(row.centroid) <= distance]:
    the distance is taken from the geometry of the text row. *)
Definition within (row : patch_row) (distance : Q) (t : text_row G) : bool :=
  geom_distance_le (geom_to_crs (geometry t)) (centroid row) distance.

(** [spotted_text[mask].text.tolist()] *)
Definition labels_within (spotted_text : list (text_row G)) (row : patch_row)
    (distance : Q) : list string :=
  map text (filter (within row distance) spotted_text).

(** One iteration of the [for] loop over [predictions.iterrows()]. *)
Definition loop_body (spotted_text : list (text_row G))
    (target_label : string) (distance : Q)
    (acc : list string * list string) (row : patch_row)
  : list string * list string :=
  let labels := labels_within spotted_text row distance in
  if String.eqb (predicted_label row) target_label
  then (fst acc ++ labels, snd acc)
  else (fst acc, snd acc ++ labels).

(** The loop, started with [adjacent_text = []] and [other_text = []]. *)
Definition partition (predictions : list patch_row)
    (spotted_text : list (text_row G)) (target_label : string)
    (distance : Q) : list string * list string :=
  fold_left (loop_body spotted_text target_label distance) predictions
    ([], []).

(** The notebook's two lists, with its constants. *)
Definition adjacent_text (predictions : list patch_row)
    (spotted_text : list (text_row G)) : list string :=
  fst (partition predictions spotted_text "building" 100).

Definition other_text (predictions : list patch_row)
    (spotted_text : list (text_row G)) : list string :=
  snd (partition predictions spotted_text "building" 100).

(** The text centroid column computed in cell 131:
    [spotted_text['geometry'].to_crs(epsg=27700).centroid]. *)
Definition text_centroid (t : text_row G) : Point :=
  geom_centroid (geom_to_crs (geometry t)).

(** The partition in the words of the specification: a text detection
    matches an anchor when the Euclidean distance between the two
    centroids is at most [max_distance]. *)
Definition centroid_within (row : patch_row) (max_distance : Q)
    (t : text_row G) : bool :=
  euclid_le (text_centroid t) (centroid row) max_distance.

Definition spec_partition (anchors : list patch_row)
    (texts : list (text_row G)) (target_label : string) (max_distance : Q)
  : list string * list string :=
  (flat_map (fun a => map text (filter (centroid_within a max_distance) texts))
     (filter (fun a => String.eqb (predicted_label a) target_label) anchors),
   flat_map (fun a => map text (filter (centroid_within a max_distance) texts))
     (filter (fun a => negb (String.eqb (predicted_label a) target_label))
        anchors)).

(** The test [row['predicted_label'] == target_label]. *)
Definition is_target (target_label : string) (row : patch_row) : bool :=
  String.eqb (predicted_label row) target_label.

(** The anchor-text pairs that match, anchors in the outer position. *)
Definition matches (keep : patch_row -> bool) (predictions : list patch_row)
    (spotted_text : list (text_row G)) (distance : Q)
  : list (patch_row * text_row G) :=
  filter (fun p => keep (fst p) && within (fst p) distance (snd p))
    (list_prod predictions spotted_text).

End Partitioner.

(** ** The cells as programs over the interpreter's objects

    Lists, dictionaries and data frames are objects in a store and are
    referred to by location, so that two names can denote one object and
    an in-place update is visible through both.  A cell is a computation
    in the state-and-exception monad over the store. *)

Section Cells.

Context {G : Type} `{Geometry G}.

Inductive object : Type :=
| PatchFrame (rows : list patch_row)
| TextFrame (rows : list (text_row G))
| StrList (xs : list string)
| ProbTable (d : dict Q)
| PairList (l : list (string * Q)).

Definition loc : Type := nat.
Definition store : Type := list object.
Definition cell : Type -> Type := stateT store result.

#[local] Existing Instance Monad_stateT.

(** Replace the object at location [l]; the cells only write to
    locations they have read. *)
Fixpoint update (s : store) (l : loc) (o : object) : store :=
  match s, l with
  | [], _ => []
  | _ :: s', O => o :: s'
  | o' :: s', S l' => o' :: update s' l' o
  end.

(** A new object gets the next free location. *)
Definition new (o : object) : cell loc :=
  s <- get ;;
  put (s ++ [o]) ;;
  ret (List.length s).

Definition load (l : loc) : cell object :=
  s <- get ;;
  match nth_error s l with
  | Some o => ret o
  | None => raise NameError
  end.

Definition store_at (l : loc) (o : object) : cell unit :=
  s <- get ;;
  put (update s l o).

Definition load_patches (l : loc) : cell (list patch_row) :=
  o <- load l ;;
  match o with
  | PatchFrame rows => ret rows
  | _ => raise TypeError
  end.

Definition load_texts (l : loc) : cell (list (text_row G)) :=
  o <- load l ;;
  match o with
  | TextFrame rows => ret rows
  | _ => raise TypeError
  end.

Definition load_list (l : loc) : cell (list string) :=
  o <- load l ;;
  match o with
  | StrList xs => ret xs
  | _ => raise TypeError
  end.

Definition load_dict (l : loc) : cell (dict Q) :=
  o <- load l ;;
  match o with
  | ProbTable d => ret d
  | _ => raise TypeError
  end.

(** [frame.to_crs(epsg=27700)]: a reprojected copy. *)
Definition frame_to_crs (frame : loc) : cell loc :=
  rows <- load_texts frame ;;
  new (TextFrame
         (map (fun t => {| text := text t;
                           geometry := geom_to_crs (geometry t) |}) rows)).

(** [frame[projected.distance(p) <= d]]: a new frame with the rows of
    [frame] at the positions where the mask holds. *)
Definition frame_select (frame projected : loc) (p : Point) (d : Q)
  : cell loc :=
  rows <- load_texts frame ;;
  shapes <- load_texts projected ;;
  let mask := map (fun t => geom_distance_le (geometry t) p d) shapes in
  new (TextFrame
         (map fst (filter (fun rm => snd rm) (combine rows mask)))).

(** [frame.text.tolist()]: a new list. *)
Definition frame_text_tolist (frame : loc) : cell loc :=
  rows <- load_texts frame ;;
  new (StrList (map text rows)).

(** [dst.extend(src)]: in place on [dst]. *)
Definition list_extend (dst src : loc) : cell unit :=
  ys <- load_list src ;;
  xs <- load_list dst ;;
  store_at dst (StrList (xs ++ ys)).

(** [d.get(k, default)] and [d[k] = v] on a dictionary object. *)
Definition dict_get_at (d : loc) (k : string) (default : Q) : cell Q :=
  entries <- load_dict d ;;
  ret (dict_get entries k default).

Definition dict_set_at (d : loc) (k : string) (v : Q) : cell unit :=
  entries <- load_dict d ;;
  store_at d (ProbTable (dict_set entries k v)).

Fixpoint for_each {A : Type} (xs : list A) (body : A -> cell unit)
  : cell unit :=
  match xs with
  | [] => ret tt
  | x :: xs' => body x ;; for_each xs' body
  end.

(** The body of the [for] loop of cell 148-160, with the locations of
    [spotted_text], [adjacent_text] and [other_text]. *)
Definition partition_body (spotted_text adjacent other : loc)
    (target_label : string) (distance : Q) (row : patch_row) : cell unit :=
  projected <- frame_to_crs spotted_text ;;
  selected <- frame_select spotted_text projected (centroid row) distance ;;
  labels <- frame_text_tolist selected ;;
  if String.eqb (predicted_label row) target_label
  then list_extend adjacent labels
  else list_extend other labels.

(** Cell 148-160.  [predictions] and [spotted_text] are the locations of
    the two frames; the result is the pair of locations of
    [adjacent_text] and [other_text]. *)
Definition partition_cell (predictions spotted_text : loc)
    (target_label : string) (distance : Q) : cell (loc * loc) :=
  adjacent <- new (StrList []) ;;
  other <- new (StrList []) ;;
  rows <- load_patches predictions ;;
  for_each rows
    (partition_body spotted_text adjacent other target_label distance) ;;
  ret (adjacent, other).

(** The body of the comprehension of cell 206, with the location of the
    dictionary under construction. *)
Definition rank_body (prob_a prob_b differences : loc) (w : string)
  : cell unit :=
  x <- dict_get_at prob_a w 0%Q ;;
  y <- dict_get_at prob_b w 0%Q ;;
  dict_set_at differences w (x - y)%Q.

(** Cell 206.  [prob_a] and [prob_b] are the locations of the two
    probability tables; the result is the location of the sorted list. *)
Definition rank_cell (prob_a prob_b : loc) : cell loc :=
  b <- load_dict prob_b ;;
  differences <- new (ProbTable []) ;;
  for_each (keys b) (rank_body prob_a prob_b differences) ;;
  d <- load_dict differences ;;
  new (PairList (sorted snd true (items d))).

End Cells.

(** ** Worked inputs *)

Local Open Scope string_scope.

Definition building_at (x y : Q) : patch_row :=
  {| predicted_label := "building"; centroid := (x, y) |}.

Definition field_at (x y : Q) : patch_row :=
  {| predicted_label := "field"; centroid := (x, y) |}.

Definition point_text (s : string) (x y : Q) : text_row shape :=
  {| text := s; geometry := PointShape (x, y) |}.

Definition box_text (s : string) (x0 y0 x1 y1 : Q) : text_row shape :=
  {| text := s; geometry := BoxShape (x0, y0) (x1, y1) |}.

(** A store holding a frame of two patches, a frame of two text labels
    and two probability tables. *)
Definition example_store : store (G:=shape) :=
  [PatchFrame [building_at 0 0; field_at 10 0];
   TextFrame [point_text "Shop" 50 0; box_text "Mill" 95 (-5) 125 5];
   ProbTable [("street", 1 # 2)];
   ProbTable [("street", 1 # 5); ("lane", 1 # 10)]].

Local Close Scope string_scope.

(** ** The notebook from the frames to the printed ranking *)

Section Notebook.

Context {G : Type} `{Geometry G}.

Variable str_lower : string -> string.

(** Cell 162: [len(adjacent_text)] and [len(other_text)], as printed. *)
Definition printed_counts (predictions : list patch_row)
    (spotted_text : list (text_row G)) : nat * nat :=
  (List.length (adjacent_text predictions spotted_text),
   List.length (other_text predictions spotted_text)).

(** Cells 172-173 and 183-184 on the notebook's two lists. *)
Definition building_text_freq (predictions : list patch_row)
    (spotted_text : list (text_row G)) : dict Z :=
  text_freq str_lower (adjacent_text predictions spotted_text).

Definition building_text_prob (predictions : list patch_row)
    (spotted_text : list (text_row G)) : result (dict Q) :=
  text_prob (building_text_freq predictions spotted_text).

Definition other_text_freq (predictions : list patch_row)
    (spotted_text : list (text_row G)) : dict Z :=
  text_freq str_lower (other_text predictions spotted_text).

Definition other_text_prob (predictions : list patch_row)
    (spotted_text : list (text_row G)) : result (dict Q) :=
  text_prob (other_text_freq predictions spotted_text).

(** Cell 206 after cells 148-184: the ranking computed from the frames. *)
Definition notebook_difference (predictions : list patch_row)
    (spotted_text : list (text_row G)) : result (list (string * Q)) :=
  a <- building_text_prob predictions spotted_text ;;
  b <- other_text_prob predictions spotted_text ;;
  ret (proportional_difference a b).

End Notebook.

(** ** Looking up one word (cell 194-196) *)





(** ** Slicing the ranking (cells 215-218, 227 and 238) *)

(** Python's clamping of a slice bound [i] for a sequence of length [n]. *)
Definition clamp (n : nat) (i : Z) : nat :=
  Z.to_nat (if i <? 0 then Z.max (Z.of_nat n + i) 0
            else Z.min i (Z.of_nat n)).

(** [l[:stop]] and [l[start:]] *)
Definition slice_to {A : Type} (stop : Z) (l : list A) : list A :=
  firstn (clamp (List.length l) stop) l.

Definition slice_from {A : Type} (start : Z) (l : list A) : list A :=
  skipn (clamp (List.length l) start) l.

(** The slices with a bound [n]: [ranking[:n]] and [ranking[-n:]]. *)
Definition top_terms (n : nat) (ranking : list (string * Q))
  : list (string * Q) := slice_to (Z.of_nat n) ranking.

Definition bottom_terms (n : nat) (ranking : list (string * Q))
  : list (string * Q) := slice_from (- Z.of_nat n) ranking.

(** Cell 215-218 prints [proportional_difference[:5]] and
    [proportional_difference[-5:]]; the plots of cells 227 and 238 take
    [proportional_difference[:10]] and [proportional_difference[-10:]]. *)
Definition building_labels (ranking : list (string * Q))
  : list (string * Q) := top_terms 5 ranking.

Definition other_labels (ranking : list (string * Q))
  : list (string * Q) := bottom_terms 5 ranking.

Definition building_plot (ranking : list (string * Q))
  : list (string * Q) := top_terms 10 ranking.

Definition other_plot (ranking : list (string * Q))
  : list (string * Q) := bottom_terms 10 ranking.

(** ** The scatter plot tables (cells 289, 325-326, 339 and 352) *)

(** A row of [data]: the columns [x], [y] and [text]. *)
Record data_row : Type := {
  col_x : Q;
  col_y : Q;
  col_text : string
}.

Inductive frame_exn : Type :=
| ValueError.

(** ASCII instance of [str.isalpha]: at least one character, all letters. *)
Definition ascii_isalpha (c : ascii) : bool :=
  let n := nat_of_ascii c in
  ((Nat.leb 65 n && Nat.leb n 90) || (Nat.leb 97 n && Nat.leb n 122))%bool.

Fixpoint all_alpha (s : string) : bool :=
  match s with
  | EmptyString => true
  | String c s' => (ascii_isalpha c && all_alpha s')%bool
  end.

Definition isalpha (s : string) : bool :=
  match s with
  | EmptyString => false
  | String _ _ => all_alpha s
  end.

(** [df.drop_duplicates(subset='text')]: the first row of each text is
    kept; [seen] holds the texts met so far. *)
Fixpoint drop_duplicates_from (seen : list string) (rows : list data_row)
  : list data_row :=
  match rows with
  | [] => []
  | r :: rows' =>
      if existsb (String.eqb (col_text r)) seen
      then drop_duplicates_from seen rows'
      else r :: drop_duplicates_from (col_text r :: seen) rows'
  end.

Definition drop_duplicates (rows : list data_row) : list data_row :=
  drop_duplicates_from [] rows.

Section Scatter.

Context {G : Type}.

Variable str_lower : string -> string.
Variable str_isalpha : string -> bool.

(** Cell 289: [spotted_text.text.str.lower().tolist()] *)
Definition text_labels (spotted_text : list (text_row G)) : list string :=
  map str_lower (map text spotted_text).

(** Cell 325-326: [pd.DataFrame(embeddings_tsne, columns=['x','y'])] and
    [data['text'] = text_labels]; a column of another length is refused. *)
Definition make_data (embeddings_tsne : list (Q * Q))
    (labels : list string) : frame_exn + list data_row :=
  if Nat.eqb (List.length labels) (List.length embeddings_tsne)
  then inr (map (fun pt => {| col_x := fst (fst pt);
                              col_y := snd (fst pt);
                              col_text := snd pt |})
              (combine embeddings_tsne labels))
  else inl ValueError.

(** Cell 339: [data[data.text.str.isalpha()]] *)
Definition data_text (data : list data_row) : list data_row :=
  filter (fun r => str_isalpha (col_text r)) data.

(** Cell 352: [data[data.text.str.isalpha()].drop_duplicates(subset='text')] *)
Definition data_text_unique (data : list data_row) : list data_row :=
  drop_duplicates (data_text data).

End Scatter.

(** ** Notions used in the further statements *)

(** The first occurrences of the elements of a list, in order. *)
Fixpoint first_occurrences_from (seen xs : list string) : list string :=
  match xs with
  | [] => []
  | x :: xs' =>
      if existsb (String.eqb x) seen then first_occurrences_from seen xs'
      else x :: first_occurrences_from (x :: seen) xs'
  end.

Definition first_occurrences (xs : list string) : list string :=
  first_occurrences_from [] xs.

(** The share of the labels whose lowercased form is [w]; 0 for no
    labels. *)
Definition relative_frequency (str_lower : string -> string)
    (labels : list string) (w : string) : Q :=
  match labels with
  | [] => 0%Q
  | _ :: _ =>
      (inject_Z (lowered_occurrences str_lower w labels)
       / inject_Z (Z.of_nat (List.length labels)))%Q
  end.

(** ** Facts about dictionaries *)

Section DictFacts.

Context {V : Type}.
Implicit Types (d : dict V) (k : string) (v : V).

Lemma dict_set_keys_in d k v :
  In k (keys d) -> keys (dict_set d k v) = keys d.
Proof.
  induction d as [|[k' v'] d IH]; simpl; intros Hin.
  - contradiction.
  - destruct (String.eqb_spec k k') as [->|Hne]; simpl.
    + reflexivity.
    + f_equal. apply IH. destruct Hin as [Heq|Hin]; congruence.
Qed.

Lemma dict_set_fresh d k v :
  ~ In k (keys d) -> dict_set d k v = d ++ [(k, v)].
Proof.
  induction d as [|[k' v'] d IH]; simpl; intros Hnin.
  - reflexivity.
  - destruct (String.eqb_spec k k') as [->|Hne].
    + exfalso. apply Hnin. now left.
    + f_equal. apply IH. intros Hin. apply Hnin. now right.
Qed.

Lemma dict_set_keys_cases d k v :
  keys (dict_set d k v) = keys d \/
  (~ In k (keys d) /\ keys (dict_set d k v) = keys d ++ [k]).
Proof.
  destruct (in_dec string_dec k (keys d)) as [Hin|Hnin].
  - left. now apply dict_set_keys_in.
  - right. split; [assumption|].
    rewrite dict_set_fresh by assumption.
    unfold keys. now rewrite map_app.
Qed.

Lemma dict_set_keys_In d k v w :
  In w (keys (dict_set d k v)) <-> w = k \/ In w (keys d).
Proof.
  destruct (dict_set_keys_cases d k v) as [E|[Hnin E]]; rewrite E.
  - split; [tauto|]. intros [->|H]; [|assumption].
    rewrite <- E. clear E.
    induction d as [|[k' v'] d IH]; simpl.
    + now left.
    + destruct (String.eqb_spec k k') as [->|Hne]; simpl; tauto.
  - rewrite in_app_iff. simpl. split; intros H; intuition congruence.
Qed.

Lemma dict_set_NoDup d k v :
  NoDup (keys d) -> NoDup (keys (dict_set d k v)).
Proof.
  intros Hnd.
  destruct (dict_set_keys_cases d k v) as [E|[Hnin E]]; rewrite E.
  - assumption.
  - apply NoDup_rev in Hnd. rewrite <- (rev_involutive (keys d ++ [k])).
    apply NoDup_rev. rewrite rev_app_distr. simpl.
    constructor; [|assumption].
    now rewrite <- in_rev.
Qed.

Lemma dict_get_set_same d k v default :
  dict_get (dict_set d k v) k default = v.
Proof.
  induction d as [|[k' v'] d IH]; simpl.
  - now rewrite String.eqb_refl.
  - destruct (String.eqb_spec k k') as [->|Hne]; simpl.
    + now rewrite String.eqb_refl.
    + apply String.eqb_neq in Hne. now rewrite Hne.
Qed.

Lemma dict_get_set_other d k v w default :
  w <> k -> dict_get (dict_set d k v) w default = dict_get d w default.
Proof.
  intros Hne.
  induction d as [|[k' v'] d IH]; simpl.
  - apply String.eqb_neq in Hne. now rewrite Hne.
  - destruct (String.eqb_spec k k') as [->|Hne']; simpl.
    + apply String.eqb_neq in Hne. now rewrite Hne.
    + now rewrite IH.
Qed.

Lemma dict_get_absent d k default :
  ~ In k (keys d) -> dict_get d k default = default.
Proof.
  induction d as [|[k' v'] d IH]; simpl; intros Hnin.
  - reflexivity.
  - destruct (String.eqb_spec k k') as [->|Hne].
    + exfalso. apply Hnin. now left.
    + apply IH. tauto.
Qed.

Lemma dict_get_In d k v default :
  NoDup (keys d) -> In (k, v) d -> dict_get d k default = v.
Proof.
  induction d as [|[k' v'] d IH]; simpl; intros Hnd Hin.
  - contradiction.
  - inversion Hnd as [|? ? Hnin Hnd']; subst.
    destruct Hin as [Heq|Hin].
    + inversion Heq; subst. now rewrite String.eqb_refl.
    + destruct (String.eqb_spec k k') as [->|Hne].
      * exfalso. apply Hnin. change k' with (fst (k', v)).
        now apply in_map.
      * now apply IH.
Qed.

Lemma dict_get_present d k default :
  In k (keys d) -> In (k, dict_get d k default) d.
Proof.
  induction d as [|[k' v'] d IH]; simpl; intros Hin.
  - contradiction.
  - destruct (String.eqb_spec k k') as [->|Hne].
    + now left.
    + right. apply IH. destruct Hin; congruence.
Qed.

(** Every entry of [dict_set d k v] is the new one or an old one. *)
Lemma dict_set_In d k v e :
  In e (dict_set d k v) -> e = (k, v) \/ In e d.
Proof.
  induction d as [|[k' v'] d IH]; simpl.
  - intros [<-|[]]. now left.
  - destruct (String.eqb_spec k k') as [->|Hne]; simpl.
    + intros [<-|H]; auto.
    + intros [<-|H]; auto. destruct (IH H); auto.
Qed.

(** Inserting fresh, pairwise distinct keys appends them in order. *)
Lemma fold_dict_set_fresh (f : string -> V) (ks : list string) d :
  NoDup (keys d ++ ks) ->
  fold_left (fun d w => dict_set d w (f w)) ks d
  = d ++ map (fun w => (w, f w)) ks.
Proof.
  revert d. induction ks as [|k ks IH]; simpl; intros d Hnd.
  - now rewrite app_nil_r.
  - assert (Hnin : ~ In k (keys d)).
    { intros Hin. apply NoDup_remove_2 in Hnd. apply Hnd.
      apply in_or_app. now left. }
    rewrite dict_set_fresh by assumption.
    rewrite IH.
    + now rewrite <- app_assoc.
    + unfold keys. rewrite map_app. simpl. now rewrite <- app_assoc.
Qed.

End DictFacts.

(** ** Facts about [sum] and [Counter] *)

Lemma fold_add_shift (xs : list Z) (a : Z) :
  fold_left Z.add xs a = a + sum xs.
Proof.
  unfold sum. revert a. induction xs as [|x xs IH]; simpl; intros a.
  - lia.
  - rewrite IH, (IH x). lia.
Qed.

Lemma sum_cons (x : Z) (xs : list Z) : sum (x :: xs) = x + sum xs.
Proof. unfold sum at 1. simpl. apply fold_add_shift. Qed.

Lemma sum_nonneg (xs : list Z) : Forall (fun v => 0 <= v) xs -> 0 <= sum xs.
Proof.
  induction 1 as [|x xs Hx _ IH].
  - reflexivity.
  - rewrite sum_cons. lia.
Qed.

Lemma sum_member_le (xs : list Z) (v : Z) :
  Forall (fun v => 0 <= v) xs -> In v xs -> v <= sum xs.
Proof.
  induction 1 as [|x xs Hx Hxs IH]; simpl; intros Hin.
  - contradiction.
  - rewrite sum_cons. pose proof (sum_nonneg xs Hxs).
    destruct Hin as [->|Hin]; [lia|]. specialize (IH Hin). lia.
Qed.

Lemma count_step_sum (c : dict Z) (x : string) :
  sum (values (count_step c x)) = sum (values c) + 1.
Proof.
  unfold count_step.
  induction c as [|[k v] c IH]; simpl.
  - reflexivity.
  - destruct (String.eqb_spec x k) as [->|Hne]; simpl.
    + rewrite !sum_cons. lia.
    + rewrite !sum_cons, IH. lia.
Qed.

Lemma count_fold_get (xs : list string) (c : dict Z) (k : string) :
  dict_get (fold_left count_step xs c) k 0 = dict_get c k 0 + occurrences k xs.
Proof.
  unfold occurrences.
  revert c. induction xs as [|x xs IH]; simpl; intros c.
  - lia.
  - rewrite IH. unfold count_step.
    destruct (String.eqb_spec k x) as [->|Hne].
    + rewrite dict_get_set_same. simpl List.length. lia.
    + rewrite dict_get_set_other by assumption. lia.
Qed.

Lemma count_fold_NoDup (xs : list string) (c : dict Z) :
  NoDup (keys c) -> NoDup (keys (fold_left count_step xs c)).
Proof.
  revert c. induction xs as [|x xs IH]; simpl; intros c Hnd.
  - assumption.
  - apply IH. now apply dict_set_NoDup.
Qed.

Lemma count_fold_keys (xs : list string) (c : dict Z) (k : string) :
  In k (keys (fold_left count_step xs c)) <-> In k (keys c) \/ In k xs.
Proof.
  revert c. induction xs as [|x xs IH]; simpl; intros c.
  - tauto.
  - rewrite IH. unfold count_step. rewrite dict_set_keys_In.
    split; intros H; intuition congruence.
Qed.

Lemma count_fold_sum (xs : list string) (c : dict Z) :
  sum (values (fold_left count_step xs c))
  = sum (values c) + Z.of_nat (List.length xs).
Proof.
  revert c. induction xs as [|x xs IH]; intros c.
  - simpl. lia.
  - simpl fold_left. rewrite IH, count_step_sum. simpl List.length. lia.
Qed.

Lemma dict_get_positive (c : dict Z) (k : string) :
  Forall (fun e => 1 <= snd e) c -> 0 <= dict_get c k 0.
Proof.
  induction 1 as [|[k' v] c Hv _ IH]; simpl in *.
  - lia.
  - destruct (String.eqb k k'); lia.
Qed.

Lemma count_fold_positive (xs : list string) (c : dict Z) :
  Forall (fun e => 1 <= snd e) c ->
  Forall (fun e => 1 <= snd e) (fold_left count_step xs c).
Proof.
  revert c. induction xs as [|x xs IH]; simpl; intros c Hc.
  - assumption.
  - apply IH. apply Forall_forall. intros e He.
    apply dict_set_In in He. destruct He as [->|He].
    + simpl. pose proof (dict_get_positive c x Hc). lia.
    + rewrite Forall_forall in Hc. now apply Hc.
Qed.

Lemma Counter_unfold (xs : list string) :
  Counter xs = fold_left count_step xs [].
Proof. reflexivity. Qed.

(** ** Facts about the probability comprehension *)

Lemma prob_comprehension_ok (its : list (string * Z)) (freq : dict Z)
    (acc : dict Q) :
  sum (values freq) <> 0 ->
  NoDup (keys acc ++ keys its) ->
  prob_comprehension its freq acc
  = Ok (acc ++ map (normalise (sum (values freq))) its).
Proof.
  intros HT. revert acc.
  induction its as [|[k v] its IH]; simpl; intros acc Hnd.
  - now rewrite app_nil_r.
  - unfold truediv. apply Z.eqb_neq in HT. rewrite HT. simpl.
    assert (Hnin : ~ In k (keys acc)).
    { intros Hin. apply NoDup_remove_2 in Hnd. apply Hnd.
      apply in_or_app. now left. }
    rewrite dict_set_fresh by assumption.
    rewrite IH.
    + now rewrite <- app_assoc.
    + unfold keys. rewrite map_app. simpl. now rewrite <- app_assoc.
Qed.

(** The builder is total: the quotient is only evaluated when the table
    has an entry, and then the total is at least one. *)
Lemma build_tables_total (str_lower : string -> string) (labels : list string) :
  build_tables str_lower labels
  = Ok (text_freq str_lower labels,
        map (normalise (sum (values (text_freq str_lower labels))))
            (text_freq str_lower labels)).
Proof.
  unfold build_tables, text_prob, items.
  destruct labels as [|l labels].
  - reflexivity.
  - rewrite prob_comprehension_ok.
    + reflexivity.
    + unfold text_freq. rewrite Counter_unfold, count_fold_sum.
      simpl List.length. simpl. lia.
    + simpl. unfold text_freq. rewrite Counter_unfold.
      apply count_fold_NoDup. constructor.
Qed.

Lemma keys_normalise (total : Z) (freq : dict Z) :
  keys (map (normalise total) freq) = keys freq.
Proof.
  unfold keys. rewrite map_map. apply map_ext. now intros [k v].
Qed.

Lemma dict_get_normalise (total : Z) (freq : dict Z) (k : string) :
  In k (keys freq) ->
  dict_get (map (normalise total) freq) k 0%Q
  = (inject_Z (dict_get freq k 0%Z) / inject_Z total)%Q.
Proof.
  induction freq as [|[k' v] freq IH]; simpl; intros Hin.
  - contradiction.
  - destruct (String.eqb_spec k k') as [->|Hne].
    + reflexivity.
    + apply IH. destruct Hin; congruence.
Qed.

Lemma fold_Qplus_normalise (total : Z) (vs : list Z) (a : Q) :
  (fold_left Qplus (map (fun v => inject_Z v / inject_Z total) vs) a
   == a + inject_Z (sum vs) / inject_Z total)%Q.
Proof.
  revert a. induction vs as [|v vs IH]; intros a.
  - simpl. unfold sum. simpl. unfold Qdiv. change (inject_Z 0) with 0%Q. ring.
  - simpl. rewrite IH, sum_cons, inject_Z_plus.
    unfold Qdiv. ring.
Qed.

Lemma fsum_normalise (freq : dict Z) :
  sum (values freq) <> 0 ->
  (fsum (values (map (normalise (sum (values freq))) freq)) == 1)%Q.
Proof.
  intros HT. unfold fsum, values. rewrite map_map. simpl.
  rewrite <- (map_map snd (fun v => (inject_Z v / inject_Z _)%Q)).
  rewrite fold_Qplus_normalise.
  rewrite Qplus_0_l. unfold values. apply Qmult_inv_r.
  intros H. apply HT.
  change 0%Q with (inject_Z 0) in H. exact (proj1 (inject_Z_injective _ _) H).
Qed.
(** ** Case folding on ASCII strings *)

Lemma all_ascii_complete (c : ascii) : In c all_ascii.
Proof.
  unfold all_ascii. rewrite <- (ascii_nat_embedding c).
  apply in_map. apply in_seq. pose proof (nat_ascii_bounded c). lia.
Qed.

Lemma same_letter_lower (c1 c2 : ascii) :
  same_letter c1 c2 = Ascii.eqb (ascii_lower c1) (ascii_lower c2).
Proof.
  assert (H : forallb (fun a => forallb (fun b =>
             Bool.eqb (same_letter a b)
                      (Ascii.eqb (ascii_lower a) (ascii_lower b)))
             all_ascii) all_ascii = true) by (vm_compute; reflexivity).
  rewrite forallb_forall in H.
  specialize (H c1 (all_ascii_complete c1)).
  rewrite forallb_forall in H.
  specialize (H c2 (all_ascii_complete c2)).
  now apply Bool.eqb_prop in H.
Qed.

Lemma same_ignoring_case_lower (s1 s2 : string) :
  same_ignoring_case s1 s2 = String.eqb (lower s1) (lower s2).
Proof.
  revert s2. induction s1 as [|c1 s1 IH]; intros [|c2 s2]; simpl;
    try reflexivity.
  rewrite same_letter_lower, IH. reflexivity.
Qed.

Lemma filter_map_length {A B : Type} (f : A -> B) (p : B -> bool)
    (l : list A) :
  List.length (filter p (map f l))
  = List.length (filter (fun a => p (f a)) l).
Proof.
  induction l as [|a l IH]; simpl.
  - reflexivity.
  - destruct (p (f a)); simpl; now rewrite IH.
Qed.

Lemma text_freq_get (str_lower : string -> string) (labels : list string)
    (k : string) :
  dict_get (text_freq str_lower labels) k 0
  = lowered_occurrences str_lower k labels.
Proof.
  unfold text_freq, lowered_occurrences.
  rewrite Counter_unfold, count_fold_get. simpl.
  unfold occurrences. now rewrite filter_map_length.
Qed.

Lemma text_freq_NoDup (str_lower : string -> string) (labels : list string) :
  NoDup (keys (text_freq str_lower labels)).
Proof.
  unfold text_freq. rewrite Counter_unfold.
  apply count_fold_NoDup. constructor.
Qed.

Lemma text_freq_keys (str_lower : string -> string) (labels : list string)
    (k : string) :
  In k (keys (text_freq str_lower labels))
  <-> exists l, In l labels /\ str_lower l = k.
Proof.
  unfold text_freq. rewrite Counter_unfold, count_fold_keys, in_map_iff.
  simpl. split.
  - intros [[]|[l [E Hl]]]. exists l. tauto.
  - intros [l [Hl E]]. right. exists l. tauto.
Qed.

Lemma text_freq_positive (str_lower : string -> string) (labels : list string) :
  Forall (fun e => 1 <= snd e) (text_freq str_lower labels).
Proof.
  unfold text_freq. rewrite Counter_unfold.
  apply count_fold_positive. constructor.
Qed.

Lemma text_freq_total (str_lower : string -> string) (labels : list string) :
  sum (values (text_freq str_lower labels)) = Z.of_nat (List.length labels).
Proof.
  unfold text_freq. rewrite Counter_unfold, count_fold_sum.
  rewrite length_map. reflexivity.
Qed.
(** ** Facts about [sorted] *)

Section SortFacts.

Context {A : Type} (key : A -> Q).

Lemma insert_by_perm (x : A) (l : list A) :
  Permutation (insert_by key x l) (x :: l).
Proof.
  induction l as [|y l IH]; simpl.
  - reflexivity.
  - destruct (Qle_bool (key x) (key y)).
    + reflexivity.
    + rewrite IH. apply perm_swap.
Qed.

Lemma sort_by_perm (l : list A) : Permutation (sort_by key l) l.
Proof.
  induction l as [|x l IH]; simpl.
  - reflexivity.
  - rewrite insert_by_perm. now constructor.
Qed.

Lemma insert_by_sorted (x : A) (l : list A) :
  StronglySorted (ascending key) l ->
  StronglySorted (ascending key) (insert_by key x l).
Proof.
  induction 1 as [|y l Hl IH Hy]; simpl.
  - constructor; constructor.
  - destruct (Qle_bool (key x) (key y)) eqn:E.
    + apply Qle_bool_iff in E.
      constructor; [now constructor|].
      constructor; [exact E|].
      eapply Forall_impl; [|exact Hy].
      intros z Hz. unfold ascending in *. now apply Qle_trans with (key y).
    + constructor; [exact IH|].
      assert (Hyx : ascending key y x).
      { unfold ascending. apply Qlt_le_weak. apply Qnot_le_lt.
        intros H. apply Qle_bool_iff in H. congruence. }
      rewrite Forall_forall in *. intros z Hz.
      apply (Permutation_in _ (insert_by_perm x l)) in Hz.
      destruct Hz as [<-|Hz]; auto.
Qed.

Lemma sort_by_sorted (l : list A) :
  StronglySorted (ascending key) (sort_by key l).
Proof.
  induction l as [|x l IH]; simpl.
  - constructor.
  - now apply insert_by_sorted.
Qed.

Lemma sorted_snoc (R : A -> A -> Prop) (l : list A) (a : A) :
  StronglySorted R l -> Forall (fun b => R b a) l ->
  StronglySorted R (l ++ [a]).
Proof.
  induction 1 as [|b l Hl IH Hb]; simpl; intros Ha.
  - constructor; constructor.
  - inversion Ha as [|? ? Hba Ha']; subst.
    constructor; [now apply IH|].
    apply Forall_app. split; [exact Hb|]. now constructor.
Qed.

Lemma sorted_rev (l : list A) :
  StronglySorted (ascending key) l -> StronglySorted (descending key) (rev l).
Proof.
  induction 1 as [|a l Hl IH Ha]; simpl.
  - constructor.
  - apply sorted_snoc; [exact IH|].
    apply Forall_forall. intros b Hb. apply in_rev in Hb.
    rewrite Forall_forall in Ha. exact (Ha b Hb).
Qed.

(** Stability: insertion never moves an element past one of equal key. *)
Lemma insert_by_stable (v : Q) (x : A) (l : list A) :
  filter (with_key key v) (insert_by key x l)
  = filter (with_key key v) (x :: l).
Proof.
  induction l as [|y l IH].
  - reflexivity.
  - cbn [insert_by].
    destruct (Qle_bool (key x) (key y)) eqn:E; [reflexivity|].
    cbn [filter] in *. rewrite IH.
    destruct (with_key key v x) eqn:Ex; [|reflexivity].
    assert (Ey : with_key key v y = false).
    { unfold with_key in *. destruct (Qeq_bool (key y) v) eqn:Ey; [|easy].
      apply Qeq_bool_iff in Ex, Ey.
      assert (H : Qle_bool (key x) (key y) = true).
      { apply Qle_bool_iff. rewrite Ex, Ey. apply Qle_refl. }
      congruence. }
    now rewrite Ey.
Qed.

Lemma sort_by_stable (v : Q) (l : list A) :
  filter (with_key key v) (sort_by key l) = filter (with_key key v) l.
Proof.
  induction l as [|x l IH]; simpl.
  - reflexivity.
  - rewrite insert_by_stable. simpl. now rewrite IH.
Qed.

Lemma sorted_reverse_perm (l : list A) : Permutation (sorted key true l) l.
Proof.
  unfold sorted. rewrite <- Permutation_rev, sort_by_perm.
  symmetry. apply Permutation_rev.
Qed.

Lemma sorted_reverse_descending (l : list A) :
  StronglySorted (descending key) (sorted key true l).
Proof. unfold sorted. apply sorted_rev, sort_by_sorted. Qed.

Lemma sorted_reverse_stable (v : Q) (l : list A) :
  filter (with_key key v) (sorted key true l) = filter (with_key key v) l.
Proof.
  unfold sorted.
  now rewrite filter_rev, sort_by_stable, filter_rev, rev_involutive.
Qed.

End SortFacts.

(** ** Facts about the dictionary comprehension *)

Section ComprehensionFacts.

Context {V : Type} (f : string -> V).

Let step (d : dict V) (w : string) : dict V := dict_set d w (f w).

Lemma comprehension_fold_NoDup (ks : list string) (d : dict V) :
  NoDup (keys d) -> NoDup (keys (fold_left step ks d)).
Proof.
  revert d. induction ks as [|k ks IH]; simpl; intros d Hd.
  - exact Hd.
  - apply IH. now apply dict_set_NoDup.
Qed.

Lemma comprehension_fold_keys (ks : list string) (d : dict V) (w : string) :
  In w (keys (fold_left step ks d)) <-> In w (keys d) \/ In w ks.
Proof.
  revert d. induction ks as [|k ks IH]; simpl; intros d.
  - tauto.
  - rewrite IH. unfold step. rewrite dict_set_keys_In.
    split; intros H; intuition congruence.
Qed.

Lemma comprehension_fold_values (ks : list string) (d : dict V) :
  Forall (fun e => snd e = f (fst e)) d ->
  Forall (fun e => snd e = f (fst e)) (fold_left step ks d).
Proof.
  revert d. induction ks as [|k ks IH]; simpl; intros d Hd.
  - exact Hd.
  - apply IH. apply Forall_forall. intros e He.
    apply dict_set_In in He. destruct He as [->|He].
    + reflexivity.
    + rewrite Forall_forall in Hd. now apply Hd.
Qed.

Lemma dict_comprehension_NoDup (ks : list string) :
  NoDup (keys (dict_comprehension f ks)).
Proof. apply comprehension_fold_NoDup. constructor. Qed.

Lemma dict_comprehension_keys (ks : list string) (w : string) :
  In w (keys (dict_comprehension f ks)) <-> In w ks.
Proof.
  unfold dict_comprehension. fold step.
  rewrite comprehension_fold_keys. simpl. tauto.
Qed.

Lemma dict_comprehension_values (ks : list string) (w : string) (v : V) :
  In (w, v) (dict_comprehension f ks) -> v = f w.
Proof.
  intros Hin.
  pose proof (comprehension_fold_values ks [] (Forall_nil _)) as H.
  rewrite Forall_forall in H. exact (H (w, v) Hin).
Qed.

Lemma dict_comprehension_distinct (ks : list string) :
  NoDup ks -> dict_comprehension f ks = map (fun w => (w, f w)) ks.
Proof.
  intros Hnd. unfold dict_comprehension.
  now rewrite fold_dict_set_fresh.
Qed.

End ComprehensionFacts.

(** ** Facts about the proximity loop *)

Section PartitionFacts.

Context {G : Type} `{Geometry G}.
Implicit Types (row : patch_row) (t : text_row G).

Lemma flat_map_ext_on {A B : Type} (f g : A -> list B) (l : list A) :
  (forall a, In a l -> f a = g a) -> flat_map f l = flat_map g l.
Proof.
  induction l as [|a l IH]; simpl; intros Hfg.
  - reflexivity.
  - rewrite (Hfg a) by now left. rewrite IH; [reflexivity|].
    intros b Hb. apply Hfg. now right.
Qed.

Lemma loop_fold (spotted_text : list (text_row G)) (target_label : string)
    (distance : Q) (predictions : list patch_row)
    (acc : list string * list string) :
  fold_left (loop_body spotted_text target_label distance) predictions acc
  = (fst acc
       ++ flat_map (fun row => labels_within spotted_text row distance)
            (filter (is_target target_label) predictions),
     snd acc
       ++ flat_map (fun row => labels_within spotted_text row distance)
            (filter (fun row => negb (is_target target_label row))
               predictions)).
Proof.
  revert acc. induction predictions as [|row rows IH]; intros [adj oth].
  - simpl. now rewrite !app_nil_r.
  - cbn [fold_left filter]. rewrite IH. unfold loop_body, is_target.
    destruct (String.eqb (predicted_label row) target_label); simpl;
      now rewrite <- ?app_assoc.
Qed.

Lemma partition_flat_map (predictions : list patch_row)
    (spotted_text : list (text_row G)) (target_label : string) (distance : Q) :
  partition predictions spotted_text target_label distance
  = (flat_map (fun row => labels_within spotted_text row distance)
       (filter (is_target target_label) predictions),
     flat_map (fun row => labels_within spotted_text row distance)
       (filter (fun row => negb (is_target target_label row)) predictions)).
Proof. unfold partition. now rewrite loop_fold. Qed.

Lemma matches_flat_map (keep : patch_row -> bool)
    (predictions : list patch_row) (spotted_text : list (text_row G))
    (distance : Q) :
  map (fun m => text (snd m)) (matches keep predictions spotted_text distance)
  = flat_map (fun row => labels_within spotted_text row distance)
      (filter keep predictions).
Proof.
  unfold matches.
  induction predictions as [|row rows IH]; simpl.
  - reflexivity.
  - rewrite filter_app, map_app, IH.
    assert (E : map (fun m => text (snd m))
                  (filter (fun p => keep (fst p)
                                    && within (fst p) distance (snd p))
                     (map (fun y => (row, y)) spotted_text))
                = if keep row then labels_within spotted_text row distance
                  else []).
    { unfold labels_within. clear IH.
      induction spotted_text as [|t ts IHt]; simpl.
      - now destruct (keep row).
      - destruct (keep row); simpl in *.
        + destruct (within row distance t); simpl; now rewrite IHt.
        + exact IHt. }
    rewrite E. now destruct (keep row).
Qed.

Lemma labels_within_In (spotted_text : list (text_row G)) row
    (distance : Q) t :
  In t spotted_text -> within row distance t = true ->
  In (text t) (labels_within spotted_text row distance).
Proof.
  intros Hin Hw. unfold labels_within. apply in_map.
  apply filter_In. now split.
Qed.

(** Where the library's distance test agrees with the distance between
    centroids, the loop computes the partition of the specification. *)
Lemma partition_spec_agree (predictions : list patch_row)
    (spotted_text : list (text_row G)) (target_label : string) (distance : Q) :
  (forall row t, In row predictions -> In t spotted_text ->
     within row distance t = centroid_within row distance t) ->
  partition predictions spotted_text target_label distance
  = spec_partition predictions spotted_text target_label distance.
Proof.
  intros Hagree. rewrite partition_flat_map. unfold spec_partition.
  f_equal.
  - apply flat_map_ext_on. intros row Hrow. apply filter_In in Hrow.
    unfold labels_within. f_equal. apply filter_ext_in.
    intros t Ht. apply Hagree; tauto.
  - apply flat_map_ext_on. intros row Hrow. apply filter_In in Hrow.
    unfold labels_within. f_equal. apply filter_ext_in.
    intros t Ht. apply Hagree; tauto.
Qed.

End PartitionFacts.

(** For point geometries the library's distance is the distance between
    centroids. *)
Lemma within_point (row : patch_row) (distance : Q) (s : string) (p : Point) :
  within row distance {| text := s; geometry := PointShape p |}
  = centroid_within row distance {| text := s; geometry := PointShape p |}.
Proof. reflexivity. Qed.

(** ** Facts about the object store *)

Section StoreFacts.

Context {G : Type} `{Geometry G}.
#[local] Existing Instance Monad_stateT.

Local Open Scope nat_scope.

Abbreviation store := (store (G:=G)).
Abbreviation cell := (cell (G:=G)).
Abbreviation object := (object (G:=G)).

Lemma update_app_r (s e : store) (i : nat) (o : object) :
  update (s ++ e) (List.length s + i) o = s ++ update e i o.
Proof.
  induction s as [|o' s IH]; simpl.
  - reflexivity.
  - now rewrite IH.
Qed.

Lemma nth_error_app_at (s e : store) (i : nat) :
  nth_error (s ++ e) (List.length s + i) = nth_error e i.
Proof.
  rewrite nth_error_app2 by lia. f_equal. lia.
Qed.

Lemma nth_error_app_old (s e : store) (l : loc) (o : object) :
  nth_error s l = Some o -> nth_error (s ++ e) l = Some o.
Proof.
  intros E. rewrite nth_error_app1; [exact E|].
  apply nth_error_Some. congruence.
Qed.

Lemma run_bind {A B : Type} (c : cell A) (k : A -> cell B) (s s' : store)
    (a : A) :
  runStateT c s = Ok (a, s') ->
  runStateT (bind c k) s = runStateT (k a) s'.
Proof. intros E. simpl. now rewrite E. Qed.

Lemma run_new (o : object) (s : store) :
  runStateT (new o) s = Ok (List.length s, s ++ [o]).
Proof. reflexivity. Qed.

Lemma run_load (l : loc) (o : object) (s : store) :
  nth_error s l = Some o -> runStateT (load l) s = Ok (o, s).
Proof. intros E. unfold load. simpl. now rewrite E. Qed.

Lemma run_load_patches (l : loc) (rows : list patch_row) (s : store) :
  nth_error s l = Some (PatchFrame rows) ->
  runStateT (load_patches l) s = Ok (rows, s).
Proof.
  intros E. unfold load_patches.
  now rewrite (run_bind _ _ _ _ _ (run_load _ _ _ E)).
Qed.

Lemma run_load_texts (l : loc) (rows : list (text_row G)) (s : store) :
  nth_error s l = Some (TextFrame rows) ->
  runStateT (load_texts l) s = Ok (rows, s).
Proof.
  intros E. unfold load_texts.
  now rewrite (run_bind _ _ _ _ _ (run_load _ _ _ E)).
Qed.

Lemma run_load_list (l : loc) (xs : list string) (s : store) :
  nth_error s l = Some (StrList xs) ->
  runStateT (load_list l) s = Ok (xs, s).
Proof.
  intros E. unfold load_list.
  now rewrite (run_bind _ _ _ _ _ (run_load _ _ _ E)).
Qed.

Lemma run_load_dict (l : loc) (d : dict Q) (s : store) :
  nth_error s l = Some (ProbTable d) ->
  runStateT (load_dict l) s = Ok (d, s).
Proof.
  intros E. unfold load_dict.
  now rewrite (run_bind _ _ _ _ _ (run_load _ _ _ E)).
Qed.

Lemma mask_select (rows : list (text_row G)) (p : Point) (d : Q) :
  map fst
    (filter (fun rm => snd rm)
       (combine rows
          (map (fun t => geom_distance_le (geometry t) p d)
             (map (fun t => {| text := text t;
                               geometry := geom_to_crs (geometry t) |})
                rows))))
  = filter (fun t => geom_distance_le (geom_to_crs (geometry t)) p d) rows.
Proof.
  induction rows as [|t rows IH]; simpl.
  - reflexivity.
  - destruct (geom_distance_le (geom_to_crs (geometry t)) p d); simpl;
      now rewrite IH.
Qed.

Lemma nth_error_last (s : store) (o : object) :
  nth_error (s ++ [o]) (List.length s) = Some o.
Proof.
  rewrite <- (Nat.add_0_r (List.length s)). now rewrite nth_error_app_at.
Qed.

Lemma run_frame_to_crs (frame : loc) (rows : list (text_row G)) (s : store) :
  nth_error s frame = Some (TextFrame rows) ->
  runStateT (frame_to_crs frame) s
  = Ok (List.length s,
        s ++ [TextFrame
                (map (fun t => {| text := text t;
                                  geometry := geom_to_crs (geometry t) |})
                   rows)]).
Proof.
  intros E. unfold frame_to_crs.
  rewrite (run_bind _ _ _ _ _ (run_load_texts _ _ _ E)).
  apply run_new.
Qed.

Lemma run_frame_select (frame projected : loc)
    (rows shapes : list (text_row G)) (p : Point) (d : Q) (s : store) :
  nth_error s frame = Some (TextFrame rows) ->
  nth_error s projected = Some (TextFrame shapes) ->
  runStateT (frame_select frame projected p d) s
  = Ok (List.length s,
        s ++ [TextFrame
                (map fst
                   (filter (fun rm => snd rm)
                      (combine rows
                         (map (fun t => geom_distance_le (geometry t) p d)
                            shapes))))]).
Proof.
  intros E1 E2. unfold frame_select.
  rewrite (run_bind _ _ _ _ _ (run_load_texts _ _ _ E1)).
  rewrite (run_bind _ _ _ _ _ (run_load_texts _ _ _ E2)).
  apply run_new.
Qed.

Lemma run_frame_text_tolist (frame : loc) (rows : list (text_row G))
    (s : store) :
  nth_error s frame = Some (TextFrame rows) ->
  runStateT (frame_text_tolist frame) s
  = Ok (List.length s, s ++ [StrList (map text rows)]).
Proof.
  intros E. unfold frame_text_tolist.
  rewrite (run_bind _ _ _ _ _ (run_load_texts _ _ _ E)).
  apply run_new.
Qed.

Lemma run_store_at (l : loc) (o : object) (s : store) :
  runStateT (store_at l o) s = Ok (tt, update s l o).
Proof. reflexivity. Qed.

Lemma run_list_extend (dst src : loc) (xs ys : list string) (s : store) :
  nth_error s dst = Some (StrList xs) ->
  nth_error s src = Some (StrList ys) ->
  runStateT (list_extend dst src) s
  = Ok (tt, update s dst (StrList (xs ++ ys))).
Proof.
  intros E1 E2. unfold list_extend.
  rewrite (run_bind _ _ _ _ _ (run_load_list _ _ _ E2)).
  rewrite (run_bind _ _ _ _ _ (run_load_list _ _ _ E1)).
  apply run_store_at.
Qed.

Lemma run_dict_get_at (d : loc) (entries : dict Q) (k : string)
    (default : Q) (s : store) :
  nth_error s d = Some (ProbTable entries) ->
  runStateT (dict_get_at d k default) s
  = Ok (dict_get entries k default, s).
Proof.
  intros E. unfold dict_get_at.
  now rewrite (run_bind _ _ _ _ _ (run_load_dict _ _ _ E)).
Qed.

Lemma run_dict_set_at (d : loc) (entries : dict Q) (k : string) (v : Q)
    (s : store) :
  nth_error s d = Some (ProbTable entries) ->
  runStateT (dict_set_at d k v) s
  = Ok (tt, update s d (ProbTable (dict_set entries k v))).
Proof.
  intros E. unfold dict_set_at.
  rewrite (run_bind _ _ _ _ _ (run_load_dict _ _ _ E)).
  apply run_store_at.
Qed.

Lemma run_partition_body (spotted_text : loc) (texts : list (text_row G))
    (target_label : string) (distance : Q) (row : patch_row)
    (s temps : store) (adj oth : list string) :
  nth_error s spotted_text = Some (TextFrame texts) ->
  exists temps',
    runStateT
      (partition_body spotted_text (List.length s) (List.length s + 1)
         target_label distance row)
      (s ++ [StrList adj; StrList oth] ++ temps)
    = Ok (tt,
          s ++ [StrList (fst (loop_body texts target_label distance
                                (adj, oth) row));
                StrList (snd (loop_body texts target_label distance
                                (adj, oth) row))] ++ temps').
Proof.
  intros E.
  set (st := s ++ [StrList adj; StrList oth] ++ temps).
  assert (Est : nth_error st spotted_text = Some (TextFrame texts))
    by now apply nth_error_app_old.
  unfold partition_body.
  rewrite (run_bind _ _ _ _ _ (run_frame_to_crs _ _ _ Est)).
  rewrite (run_bind _ _ _ _ _
             (run_frame_select _ _ _ _ _ _ _
                (nth_error_app_old _ _ _ _ Est) (nth_error_last _ _))).
  rewrite (run_bind _ _ _ _ _
             (run_frame_text_tolist _ _ _ (nth_error_last _ _))).
  rewrite mask_select.
  fold (within row distance). fold (labels_within texts row distance).
  set (labels := labels_within texts row distance).
  match goal with
  | |- context [runStateT _ (((st ++ [?a]) ++ [?b]) ++ [StrList labels])] =>
      set (f1 := a); set (f2 := b)
  end.
  assert (Eshape : ((st ++ [f1]) ++ [f2]) ++ [StrList labels]
                   = s ++ [StrList adj; StrList oth]
                       ++ (temps ++ [f1; f2; StrList labels])).
  { subst st. now rewrite <- !app_assoc. }
  assert (Elab : nth_error (((st ++ [f1]) ++ [f2]) ++ [StrList labels])
                   (List.length ((st ++ [f1]) ++ [f2]))
                 = Some (StrList labels)) by apply nth_error_last.
  exists (temps ++ [f1; f2; StrList labels]).
  unfold loop_body. fold labels. cbn [fst snd].
  destruct (String.eqb (predicted_label row) target_label).
  - erewrite run_list_extend; [|rewrite Eshape|exact Elab].
    + rewrite Eshape.
      rewrite <- (Nat.add_0_r (List.length s)) at 1.
      now rewrite update_app_r.
    + rewrite <- (Nat.add_0_r (List.length s)).
      now rewrite nth_error_app_at.
  - erewrite run_list_extend; [|rewrite Eshape|exact Elab].
    + rewrite Eshape. now rewrite update_app_r.
    + now rewrite nth_error_app_at.
Qed.

Lemma run_partition_loop (spotted_text : loc) (texts : list (text_row G))
    (target_label : string) (distance : Q) (rows : list patch_row)
    (s : store) :
  nth_error s spotted_text = Some (TextFrame texts) ->
  forall (temps : store) (adj oth : list string),
  exists temps',
    runStateT
      (for_each rows
         (partition_body spotted_text (List.length s) (List.length s + 1)
            target_label distance))
      (s ++ [StrList adj; StrList oth] ++ temps)
    = Ok (tt,
          s ++ [StrList (fst (fold_left
                                (loop_body texts target_label distance)
                                rows (adj, oth)));
                StrList (snd (fold_left
                                (loop_body texts target_label distance)
                                rows (adj, oth)))] ++ temps').
Proof.
  intros E. induction rows as [|row rows IH]; intros temps adj oth.
  - exists temps. reflexivity.
  - destruct (run_partition_body spotted_text texts target_label distance
                row s temps adj oth E) as [temps1 E1].
    cbn [for_each fold_left].
    rewrite (run_bind _ _ _ _ _ E1).
    destruct (loop_body texts target_label distance (adj, oth) row)
      as [adj1 oth1].
    apply IH.
Qed.

Lemma run_rank_loop (prob_a prob_b : loc) (a b : dict Q) (s : store)
    (ks : list string) :
  nth_error s prob_a = Some (ProbTable a) ->
  nth_error s prob_b = Some (ProbTable b) ->
  forall d : dict Q,
    runStateT (for_each ks (rank_body prob_a prob_b (List.length s)))
      (s ++ [ProbTable d])
    = Ok (tt,
          s ++ [ProbTable
                  (fold_left (fun d w => dict_set d w (difference a b w))
                     ks d)]).
Proof.
  intros Ea Eb. induction ks as [|w ks IH]; intros d.
  - reflexivity.
  - cbn [for_each fold_left].
    erewrite run_bind; [apply IH|].
    unfold rank_body.
    rewrite (run_bind _ _ _ _ _
               (run_dict_get_at _ _ _ _ _ (nth_error_app_old _ _ _ _ Ea))).
    rewrite (run_bind _ _ _ _ _
               (run_dict_get_at _ _ _ _ _ (nth_error_app_old _ _ _ _ Eb))).
    rewrite (run_dict_set_at _ _ _ _ _ (nth_error_last _ _)).
    rewrite <- (Nat.add_0_r (List.length s)) at 1.
    now rewrite update_app_r.
Qed.

(** Running cell 148-160 in any store that holds the two frames leaves
    every object of that store in place and unchanged, and returns two new
    lists holding the partition. *)
Lemma run_partition_cell (predictions spotted_text : loc)
    (rows : list patch_row) (texts : list (text_row G))
    (target_label : string) (distance : Q) (s : store) :
  nth_error s predictions = Some (PatchFrame rows) ->
  nth_error s spotted_text = Some (TextFrame texts) ->
  exists temps,
    runStateT (partition_cell predictions spotted_text target_label distance)
      s
    = Ok ((List.length s, List.length s + 1),
          s ++ [StrList (fst (partition rows texts target_label distance));
                StrList (snd (partition rows texts target_label distance))]
            ++ temps).
Proof.
  intros Ep Et.
  destruct (run_partition_loop spotted_text texts target_label distance rows
              s Et [] [] []) as [temps Eloop].
  exists temps. unfold partition_cell.
  rewrite (run_bind _ _ _ _ _ (run_new _ _)).
  rewrite (run_bind _ _ _ _ _ (run_new _ _)).
  rewrite length_app. cbn [List.length].
  rewrite <- app_assoc. cbn [app].
  erewrite run_bind.
  2: { apply run_load_patches. apply nth_error_app_old. exact Ep. }
  change (s ++ [StrList []; StrList []])
    with (s ++ [StrList []; StrList []] ++ []).
  rewrite (run_bind _ _ _ _ _ Eloop).
  reflexivity.
Qed.

(** Running cell 206 in any store that holds the two tables leaves every
    object of that store in place and unchanged, and returns a new list
    holding the ranking. *)
Lemma run_rank_cell (prob_a prob_b : loc) (a b : dict Q) (s : store) :
  nth_error s prob_a = Some (ProbTable a) ->
  nth_error s prob_b = Some (ProbTable b) ->
  runStateT (rank_cell prob_a prob_b) s
  = Ok (List.length s + 1,
        s ++ [ProbTable (dict_comprehension (difference a b) (keys b));
              PairList (rank_difference a b)]).
Proof.
  intros Ea Eb. unfold rank_cell.
  rewrite (run_bind _ _ _ _ _ (run_load_dict _ _ _ Eb)).
  rewrite (run_bind _ _ _ _ _ (run_new _ _)).
  rewrite (run_bind _ _ _ _ _ (run_rank_loop _ _ _ _ _ (keys b) Ea Eb [])).
  rewrite (run_bind _ _ _ _ _ (run_load_dict _ _ _ (nth_error_last _ _))).
  rewrite run_new, length_app, <- app_assoc. reflexivity.
Qed.

End StoreFacts.

(** ** Further facts about lists *)

Lemma Permutation_filter_same {A : Type} (p : A -> bool) (l l' : list A) :
  Permutation l l' -> Permutation (filter p l) (filter p l').
Proof.
  induction 1 as [|a l l' _ IH|a b l|l l' l'' _ IH1 _ IH2]; simpl.
  - constructor.
  - destruct (p a); [now constructor|exact IH].
  - destruct (p a), (p b); try reflexivity. apply perm_swap.
  - now transitivity (filter p l').
Qed.

Lemma Permutation_flat_map_pointwise {A B : Type} (f g : A -> list B)
    (l : list A) :
  (forall a, In a l -> Permutation (f a) (g a)) ->
  Permutation (flat_map f l) (flat_map g l).
Proof.
  induction l as [|a l IH]; simpl; intros Hfg.
  - constructor.
  - apply Permutation_app.
    + apply Hfg. now left.
    + apply IH. intros b Hb. apply Hfg. now right.
Qed.

Lemma flat_map_split {A B : Type} (f : A -> list B) (p : A -> bool)
    (l : list A) :
  Permutation
    (flat_map f (filter p l) ++ flat_map f (filter (fun a => negb (p a)) l))
    (flat_map f l).
Proof.
  induction l as [|a l IH]; simpl.
  - constructor.
  - destruct (p a); simpl.
    + rewrite <- app_assoc. now apply Permutation_app_head.
    + rewrite Permutation_app_comm. simpl. rewrite <- app_assoc.
      apply Permutation_app_head. now rewrite Permutation_app_comm.
Qed.

Lemma filter_true {A : Type} (l : list A) : filter (fun _ => true) l = l.
Proof. induction l as [|a l IH]; simpl; congruence. Qed.

(** ** Further facts about the proximity loop *)

Section PartitionMore.

Context {G : Type} `{Geometry G}.

Lemma labels_within_perm (t t' : list (text_row G)) (row : patch_row)
    (distance : Q) :
  Permutation t t' ->
  Permutation (labels_within t row distance) (labels_within t' row distance).
Proof.
  intros Ht. unfold labels_within.
  apply Permutation_map. now apply Permutation_filter_same.
Qed.

Lemma partition_perm (p p' : list patch_row) (t t' : list (text_row G))
    (target_label : string) (distance : Q) :
  Permutation p p' -> Permutation t t' ->
  Permutation (fst (partition p t target_label distance))
    (fst (partition p' t' target_label distance))
  /\ Permutation (snd (partition p t target_label distance))
       (snd (partition p' t' target_label distance)).
Proof.
  intros Hp Ht. rewrite !partition_flat_map. cbn [fst snd]. split.
  - transitivity (flat_map (fun row => labels_within t row distance)
                    (filter (is_target target_label) p')).
    + apply Permutation_flat_map. now apply Permutation_filter_same.
    + apply Permutation_flat_map_pointwise. intros row _.
      now apply labels_within_perm.
  - transitivity (flat_map (fun row => labels_within t row distance)
                    (filter (fun row => negb (is_target target_label row))
                       p')).
    + apply Permutation_flat_map. now apply Permutation_filter_same.
    + apply Permutation_flat_map_pointwise. intros row _.
      now apply labels_within_perm.
Qed.

End PartitionMore.

(** ** Further facts about the tables *)

Lemma lowered_occurrences_perm (str_lower : string -> string) (k : string)
    (l l' : list string) :
  Permutation l l' ->
  lowered_occurrences str_lower k l = lowered_occurrences str_lower k l'.
Proof.
  intros Hl. unfold lowered_occurrences. f_equal.
  apply Permutation_length. now apply Permutation_filter_same.
Qed.

Lemma text_prob_total (str_lower : string -> string) (labels : list string) :
  text_prob (text_freq str_lower labels)
  = Ok (map (normalise (Z.of_nat (List.length labels)))
          (text_freq str_lower labels)).
Proof.
  pose proof (build_tables_total str_lower labels) as E.
  unfold build_tables in E. rewrite text_freq_total in E.
  destruct (text_prob (text_freq str_lower labels)) as [prob|e];
    simpl in E; [|discriminate E].
  now inversion E.
Qed.

Lemma lowered_occurrences_nonneg (str_lower : string -> string) (k : string)
    (labels : list string) :
  0 <= lowered_occurrences str_lower k labels.
Proof. unfold lowered_occurrences. lia. Qed.

Lemma lowered_occurrences_le (str_lower : string -> string) (k : string)
    (labels : list string) :
  lowered_occurrences str_lower k labels <= Z.of_nat (List.length labels).
Proof.
  unfold lowered_occurrences. apply inj_le. apply filter_length_le.
Qed.

Lemma lowered_occurrences_pos (str_lower : string -> string) (k : string)
    (labels : list string) :
  (exists l, In l labels /\ str_lower l = k) <->
  0 < lowered_occurrences str_lower k labels.
Proof.
  unfold lowered_occurrences. split.
  - intros [l [Hin <-]].
    assert (Hf : In l (filter (fun l' => String.eqb (str_lower l)
                                           (str_lower l')) labels)).
    { apply filter_In. split; [exact Hin|apply String.eqb_refl]. }
    destruct (filter _ labels); [contradiction|simpl; lia].
  - intros Hpos.
    destruct (filter (fun l => String.eqb k (str_lower l)) labels)
      as [|l ls] eqn:E; [simpl in Hpos; lia|].
    assert (Hl : In l (filter (fun l => String.eqb k (str_lower l)) labels))
      by (rewrite E; now left).
    apply filter_In in Hl. destruct Hl as [Hin Heq].
    exists l. split; [exact Hin|]. symmetry. now apply String.eqb_eq.
Qed.

(** ** Facts about subscripting *)



(** ** Facts about first occurrences *)

Lemma existsb_eqb_In (x : string) (seen : list string) :
  existsb (String.eqb x) seen = true <-> In x seen.
Proof.
  rewrite existsb_exists. split.
  - intros [y [Hy E]]. apply String.eqb_eq in E. now subst.
  - intros Hin. exists x. split; [exact Hin|apply String.eqb_refl].
Qed.

Lemma existsb_eqb_not_In (x : string) (seen : list string) :
  existsb (String.eqb x) seen = false <-> ~ In x seen.
Proof.
  rewrite <- existsb_eqb_In. destruct (existsb (String.eqb x) seen);
    split; intros; congruence.
Qed.

Lemma first_occurrences_from_In (seen xs : list string) (w : string) :
  In w (first_occurrences_from seen xs) <-> In w xs /\ ~ In w seen.
Proof.
  revert seen. induction xs as [|x xs IH]; intros seen; simpl.
  - tauto.
  - destruct (existsb (String.eqb x) seen) eqn:E.
    + apply existsb_eqb_In in E. rewrite IH.
      split; [tauto|]. intros [[->|Hin] Hn]; tauto.
    + apply existsb_eqb_not_In in E. simpl. rewrite IH. simpl.
      split.
      * intros [<-|[Hin Hn]]; tauto.
      * intros [[<-|Hin] Hn]; [now left|].
        destruct (string_dec x w) as [->|Hne]; [now left|right; tauto].
Qed.

Lemma first_occurrences_from_NoDup (seen xs : list string) :
  NoDup (first_occurrences_from seen xs).
Proof.
  revert seen. induction xs as [|x xs IH]; intros seen; simpl.
  - constructor.
  - destruct (existsb (String.eqb x) seen); [apply IH|].
    constructor; [|apply IH].
    rewrite first_occurrences_from_In. simpl. tauto.
Qed.

Lemma first_occurrences_from_ext (seen seen' xs : list string) :
  (forall w, In w seen <-> In w seen') ->
  first_occurrences_from seen xs = first_occurrences_from seen' xs.
Proof.
  revert seen seen'. induction xs as [|x xs IH]; intros seen seen' Hs; simpl.
  - reflexivity.
  - destruct (existsb (String.eqb x) seen) eqn:E,
             (existsb (String.eqb x) seen') eqn:E'.
    + now apply IH.
    + apply existsb_eqb_In in E. apply existsb_eqb_not_In in E'.
      exfalso. apply E'. now apply Hs.
    + apply existsb_eqb_In in E'. apply existsb_eqb_not_In in E.
      exfalso. apply E. now apply Hs.
    + f_equal. apply IH. intros w. simpl. rewrite Hs. tauto.
Qed.

(** The keys of a [Counter] are the first occurrences, in order. *)
Lemma count_fold_key_order (xs : list string) (c : dict Z) :
  keys (fold_left count_step xs c)
  = keys c ++ first_occurrences_from (keys c) xs.
Proof.
  revert c. induction xs as [|x xs IH]; intros c; simpl.
  - now rewrite app_nil_r.
  - rewrite IH. unfold count_step.
    destruct (existsb (String.eqb x) (keys c)) eqn:E.
    + apply existsb_eqb_In in E.
      now rewrite (dict_set_keys_in c x _ E).
    + apply existsb_eqb_not_In in E.
      rewrite (dict_set_fresh c x _ E).
      unfold keys at 1 2. rewrite map_app. simpl.
      rewrite <- app_assoc. simpl. do 2 f_equal.
      apply first_occurrences_from_ext. intros w.
      fold (keys c). rewrite in_app_iff. simpl. tauto.
Qed.

Lemma text_freq_key_order (str_lower : string -> string)
    (labels : list string) :
  keys (text_freq str_lower labels)
  = first_occurrences (map str_lower labels).
Proof.
  unfold text_freq. rewrite Counter_unfold, count_fold_key_order.
  reflexivity.
Qed.

(** ** Facts about [drop_duplicates] *)

Lemma drop_duplicates_from_texts (seen : list string)
    (rows : list data_row) :
  map col_text (drop_duplicates_from seen rows)
  = first_occurrences_from seen (map col_text rows).
Proof.
  revert seen. induction rows as [|r rows IH]; intros seen; simpl.
  - reflexivity.
  - destruct (existsb (String.eqb (col_text r)) seen); simpl;
      now rewrite IH.
Qed.

Lemma drop_duplicates_from_In (seen : list string) (rows : list data_row)
    (r : data_row) :
  In r (drop_duplicates_from seen rows) ->
  In r rows /\ ~ In (col_text r) seen.
Proof.
  revert seen. induction rows as [|r0 rows IH]; intros seen; simpl.
  - tauto.
  - destruct (existsb (String.eqb (col_text r0)) seen) eqn:E.
    + intros Hin. apply IH in Hin. tauto.
    + apply existsb_eqb_not_In in E. intros [<-|Hin].
      * tauto.
      * apply IH in Hin. simpl in Hin. tauto.
Qed.

Lemma drop_duplicates_from_first (seen : list string)
    (rows : list data_row) (r : data_row) :
  In r (drop_duplicates_from seen rows) ->
  find (fun r' => String.eqb (col_text r') (col_text r)) rows = Some r.
Proof.
  revert seen. induction rows as [|r0 rows IH]; intros seen; simpl.
  - tauto.
  - destruct (existsb (String.eqb (col_text r0)) seen) eqn:E.
    + intros Hin. pose proof (drop_duplicates_from_In _ _ _ Hin) as [_ Hn].
      apply existsb_eqb_In in E.
      destruct (String.eqb_spec (col_text r0) (col_text r)) as [Heq|Hne].
      * exfalso. apply Hn. now rewrite <- Heq.
      * now apply IH with seen.
    + intros [<-|Hin].
      * now rewrite String.eqb_refl.
      * pose proof (drop_duplicates_from_In _ _ _ Hin) as [_ Hn].
        destruct (String.eqb_spec (col_text r0) (col_text r)) as [Heq|Hne].
        -- exfalso. apply Hn. left. exact Heq.
        -- now apply IH with (col_text r0 :: seen).
Qed.

Lemma drop_duplicates_from_filter (p : string -> bool)
    (seen seen' : list string) (rows : list data_row) :
  (forall w, p w = true -> (In w seen <-> In w seen')) ->
  drop_duplicates_from seen (filter (fun r => p (col_text r)) rows)
  = filter (fun r => p (col_text r)) (drop_duplicates_from seen' rows).
Proof.
  revert seen seen'.
  induction rows as [|r rows IH]; intros seen seen' Hs; simpl.
  - reflexivity.
  - destruct (p (col_text r)) eqn:Ep; simpl.
    + destruct (existsb (String.eqb (col_text r)) seen) eqn:E,
               (existsb (String.eqb (col_text r)) seen') eqn:E'.
      * now apply IH.
      * apply existsb_eqb_In in E. apply existsb_eqb_not_In in E'.
        exfalso. apply E'. now apply (Hs _ Ep).
      * apply existsb_eqb_In in E'. apply existsb_eqb_not_In in E.
        exfalso. apply E. now apply (Hs _ Ep).
      * simpl. rewrite Ep. f_equal. apply IH.
        intros w Hw. simpl. rewrite (Hs w Hw). tauto.
    + destruct (existsb (String.eqb (col_text r)) seen') eqn:E'.
      * now apply IH.
      * simpl. rewrite Ep. apply IH.
        intros w Hw. simpl. rewrite (Hs w Hw).
        split; [tauto|]. intros [Heq|Hin]; [|exact Hin].
        congruence.
Qed.

(** ** Facts about relative frequencies *)

Lemma relative_frequency_range (str_lower : string -> string)
    (labels : list string) (w : string) :
  (0 <= relative_frequency str_lower labels w
   /\ relative_frequency str_lower labels w <= 1)%Q.
Proof.
  unfold relative_frequency. destruct labels as [|l labels].
  - split; discriminate.
  - set (n := Z.of_nat (List.length (l :: labels))).
    assert (Hn : (0 < inject_Z n)%Q).
    { change 0%Q with (inject_Z 0). rewrite <- Zlt_Qlt.
      subst n. simpl List.length. lia. }
    pose proof (lowered_occurrences_nonneg str_lower w (l :: labels)) as H0.
    pose proof (lowered_occurrences_le str_lower w (l :: labels)) as H1.
    fold n in H1. split.
    + apply Qle_shift_div_l; [exact Hn|]. rewrite Qmult_0_l.
      change 0%Q with (inject_Z 0). now rewrite <- Zle_Qle.
    + apply Qle_shift_div_r; [exact Hn|]. rewrite Qmult_1_l.
      now rewrite <- Zle_Qle.
Qed.

Lemma relative_frequency_pos (str_lower : string -> string)
    (labels : list string) (w : string) :
  (exists l, In l labels /\ str_lower l = w) ->
  (0 < relative_frequency str_lower labels w)%Q.
Proof.
  intros Hex. pose proof (proj1 (lowered_occurrences_pos _ _ _) Hex) as Hpos.
  unfold relative_frequency. destruct labels as [|l labels].
  - destruct Hex as [l [[] _]].
  - apply Qlt_shift_div_l.
    + change 0%Q with (inject_Z 0). rewrite <- Zlt_Qlt.
      simpl List.length. lia.
    + rewrite Qmult_0_l. change 0%Q with (inject_Z 0).
      now rewrite <- Zlt_Qlt.
Qed.

Lemma relative_frequency_zero (str_lower : string -> string)
    (labels : list string) (w : string) :
  ~ (exists l, In l labels /\ str_lower l = w) ->
  (relative_frequency str_lower labels w == 0)%Q.
Proof.
  intros Hnex.
  assert (H0 : lowered_occurrences str_lower w labels = 0).
  { pose proof (lowered_occurrences_nonneg str_lower w labels).
    destruct (Z.eq_dec (lowered_occurrences str_lower w labels) 0)
      as [E|E]; [exact E|].
    exfalso. apply Hnex. apply lowered_occurrences_pos. lia. }
  unfold relative_frequency. destruct labels; [reflexivity|].
  rewrite H0. unfold Qdiv. apply Qmult_0_l.
Qed.

(** The entry of the probability table, read with [.get(w, 0)]. *)
Lemma prob_get_relative_frequency (str_lower : string -> string)
    (labels : list string) (w : string) :
  (dict_get (map (normalise (Z.of_nat (List.length labels)))
               (text_freq str_lower labels)) w 0
   == relative_frequency str_lower labels w)%Q.
Proof.
  destruct (in_dec string_dec w (keys (text_freq str_lower labels)))
    as [Hin|Hnin].
  - rewrite dict_get_normalise by exact Hin. rewrite text_freq_get.
    unfold relative_frequency. destruct labels as [|l labels].
    + destruct Hin.
    + reflexivity.
  - rewrite dict_get_absent by (now rewrite keys_normalise).
    symmetry. apply relative_frequency_zero.
    intros Hex. apply Hnin. now apply text_freq_keys.
Qed.

(** ** Facts about slices *)

Lemma clamp_stop (len n : nat) : clamp len (Z.of_nat n) = Nat.min n len.
Proof.
  unfold clamp. destruct (Z.ltb_spec (Z.of_nat n) 0) as [Hlt|Hge]; lia.
Qed.

Lemma clamp_start (len n : nat) :
  clamp len (- Z.of_nat n) = match n with O => O | S _ => (len - n)%nat end.
Proof.
  unfold clamp. destruct n as [|n].
  - simpl. lia.
  - destruct (Z.ltb_spec (- Z.of_nat (S n)) 0) as [Hlt|Hge]; lia.
Qed.

Lemma top_terms_firstn (n : nat) (ranking : list (string * Q)) :
  top_terms n ranking = firstn n ranking.
Proof.
  unfold top_terms, slice_to. rewrite clamp_stop.
  destruct (Nat.le_ge_cases n (List.length ranking)) as [Hle|Hge].
  - now rewrite Nat.min_l.
  - rewrite Nat.min_r by exact Hge.
    now rewrite firstn_all, firstn_all2.
Qed.

Lemma bottom_terms_skipn (n : nat) (ranking : list (string * Q)) :
  bottom_terms (S n) ranking
  = skipn (List.length ranking - S n) ranking.
Proof. unfold bottom_terms, slice_from. now rewrite clamp_start. Qed.

Lemma bottom_terms_zero (ranking : list (string * Q)) :
  bottom_terms 0 ranking = ranking.
Proof. unfold bottom_terms, slice_from. now rewrite clamp_start. Qed.

Lemma sorted_app_order {A : Type} (R : A -> A -> Prop) (l1 l2 : list A) :
  StronglySorted R (l1 ++ l2) ->
  forall a b, In a l1 -> In b l2 -> R a b.
Proof.
  induction l1 as [|x l1 IH]; simpl; intros Hs a b Ha Hb.
  - contradiction.
  - apply StronglySorted_inv in Hs. destruct Hs as [Hs Hx].
    destruct Ha as [<-|Ha].
    + rewrite Forall_forall in Hx. apply Hx. apply in_or_app. now right.
    + now apply IH.
Qed.

(** ** Facts about the scatter plot tables *)

Lemma make_data_texts (embeddings_tsne : list (Q * Q))
    (labels : list string) (data : list data_row) :
  make_data embeddings_tsne labels = inr data ->
  map col_text data = labels /\ List.length data = List.length labels.
Proof.
  unfold make_data.
  destruct (Nat.eqb_spec (List.length labels) (List.length embeddings_tsne))
    as [Hlen|Hlen]; [|discriminate].
  intros E. inversion E; subst data. clear E.
  rewrite map_map, length_map. simpl.
  split.
  - revert embeddings_tsne Hlen.
    induction labels as [|l labels IH]; intros [|p ps] Hlen;
      simpl in *; try discriminate; try reflexivity.
    f_equal. apply IH. lia.
  - rewrite length_combine. lia.
Qed.

Lemma find_filter_same {A : Type} (q p : A -> bool) (l : list A) :
  (forall a, q a = true -> p a = true) ->
  find q (filter p l) = find q l.
Proof.
  intros Hqp. induction l as [|a l IH]; simpl.
  - reflexivity.
  - destruct (p a) eqn:Ep; simpl.
    + now rewrite IH.
    + destruct (q a) eqn:Eq; [|exact IH].
      apply Hqp in Eq. congruence.
Qed.

(** Case folding keeps letters letters. *)
Lemma ascii_isalpha_lower (c : ascii) :
  ascii_isalpha (ascii_lower c) = ascii_isalpha c.
Proof.
  assert (H : forallb (fun a => Bool.eqb (ascii_isalpha (ascii_lower a))
                                  (ascii_isalpha a)) all_ascii = true)
    by (vm_compute; reflexivity).
  rewrite forallb_forall in H.
  specialize (H c (all_ascii_complete c)).
  now apply Bool.eqb_prop in H.
Qed.

Lemma isalpha_lower (s : string) : isalpha (lower s) = isalpha s.
Proof.
  assert (Hall : forall t, all_alpha (lower t) = all_alpha t).
  { intros t. induction t as [|c t IH]; simpl.
    - reflexivity.
    - now rewrite ascii_isalpha_lower, IH. }
  destruct s as [|c s]; [reflexivity|].
  exact (Hall (String c s)).
Qed.

(** ** Facts about sums of floats *)

Lemma fold_Qplus_shift (l : list Q) (a : Q) :
  (fold_left Qplus l a == a + fsum l)%Q.
Proof.
  unfold fsum. revert a. induction l as [|x l IH]; intros a; simpl.
  - ring.
  - rewrite IH, (IH (0 + x)%Q). ring.
Qed.

Lemma fsum_cons (x : Q) (l : list Q) : (fsum (x :: l) == x + fsum l)%Q.
Proof.
  unfold fsum at 1. simpl. rewrite fold_Qplus_shift. ring.
Qed.

Lemma fsum_nil : fsum [] = 0%Q.
Proof. reflexivity. Qed.



Lemma fsum_nonneg (l : list Q) :
  Forall (fun v => 0 <= v)%Q l -> (0 <= fsum l)%Q.
Proof.
  induction 1 as [|x l Hx _ IH].
  - rewrite fsum_nil. apply Qle_refl.
  - rewrite fsum_cons. lra.
Qed.





(** * Properties of the specification *)

Local Open Scope string_scope.

(** ** Frequency and probability builder *)

(** C1, as stated, fails: for the empty labels list the builder raises
    nothing.  The dictionary comprehension evaluates the quotient once per
    item of the frequency table, and the empty table has no item. *)
Lemma empty_labels_raise_nothing :
  build_tables lower [] = Ok ([], [])
  /\ ~ (exists e, build_tables lower [] = Raise e).
Proof. split; [reflexivity|]. intros [e He]. discriminate He. Qed.

(** C1 (amended): for the empty labels list the builder returns normally,
    with an empty frequency table and an empty probability table, for
    every lowercasing function. *)
Theorem build_tables_empty (str_lower : string -> string) :
  build_tables str_lower [] = Ok ([], []).
Proof. reflexivity. Qed.

(** C6: the frequency table counts case-insensitively.  Its keys are
    exactly the lowercased labels, each once; the count stored under a
    key is the number of labels whose lowercased form is that key; for
    ASCII labels the count stored under [lower k] is the number of labels
    that differ from [k] only in the case of their letters; and the
    labels Street, street, LANE give street 2, lane 1. *)
Theorem text_freq_case_insensitive :
  (forall (str_lower : string -> string) (labels : list string),
     let freq := text_freq str_lower labels in
     NoDup (keys freq)
     /\ (forall k,
           In k (keys freq) <-> exists l, In l labels /\ str_lower l = k)
     /\ (forall k,
           dict_get freq k 0 = lowered_occurrences str_lower k labels))
  /\ (forall (labels : list string) (k : string),
        dict_get (text_freq lower labels) (lower k) 0
        = Z.of_nat (List.length (filter (same_ignoring_case k) labels)))
  /\ text_freq lower ["Street"; "street"; "LANE"]
     = [("street", 2); ("lane", 1)].
Proof.
  split; [|split].
  - intros str_lower labels freq. subst freq.
    split; [apply text_freq_NoDup|].
    split; [apply text_freq_keys|apply text_freq_get].
  - intros labels k. rewrite text_freq_get. unfold lowered_occurrences.
    do 2 f_equal. apply filter_ext. intros l.
    symmetry. apply same_ignoring_case_lower.
  - reflexivity.
Qed.

(** The scenario of the specification: 2/3 and 1/3. *)
Example build_tables_scenario :
  build_tables lower ["Street"; "street"; "LANE"]
  = Ok ([("street", 2); ("lane", 1)],
        [("street", (2 # 3)%Q); ("lane", (1 # 3)%Q)]).
Proof. reflexivity. Qed.

(** C7: for a non-empty labels list the builder returns tables in which
    every probability is the frequency divided by the sum of all
    frequencies, and the probabilities add up to one (floats taken as
    exact rationals). *)
Theorem prob_normalised (str_lower : string -> string)
    (labels : list string) :
  labels <> [] ->
  exists freq prob,
    build_tables str_lower labels = Ok (freq, prob)
    /\ (forall k, In k (keys freq) ->
          dict_get prob k 0%Q
          = (inject_Z (dict_get freq k 0%Z) / inject_Z (sum (values freq)))%Q)
    /\ (fsum (values prob) == 1)%Q.
Proof.
  intros Hne.
  eexists. eexists. split; [apply build_tables_total|].
  split.
  - intros k Hk. now apply dict_get_normalise.
  - apply fsum_normalise. rewrite text_freq_total.
    destruct labels; [congruence|simpl; lia].
Qed.

Lemma prob_normalised_witness :
  ["Street"; "street"; "LANE"] <> []
  /\ exists freq prob,
    build_tables lower ["Street"; "street"; "LANE"] = Ok (freq, prob)
    /\ (forall k, In k (keys freq) ->
          dict_get prob k 0%Q
          = (inject_Z (dict_get freq k 0%Z) / inject_Z (sum (values freq)))%Q)
    /\ (fsum (values prob) == 1)%Q.
Proof.
  assert (Hne : ["Street"; "street"; "LANE"] <> [])
    by (intros H; discriminate H).
  split; [exact Hne|].
  exact (prob_normalised lower ["Street"; "street"; "LANE"] Hne).
Defined.

(** C10: for a non-empty labels list the two tables have the same keys
    (in the same order), every frequency is at least 1, and every
    probability is strictly positive and at most 1. *)
Theorem tables_invariants (str_lower : string -> string)
    (labels : list string) :
  labels <> [] ->
  exists freq prob,
    build_tables str_lower labels = Ok (freq, prob)
    /\ keys prob = keys freq
    /\ Forall (fun e => 1 <= snd e) freq
    /\ Forall (fun e => 0 < snd e /\ snd e <= 1)%Q prob.
Proof.
  intros Hne.
  eexists. eexists. split; [apply build_tables_total|].
  split; [apply keys_normalise|].
  split; [apply text_freq_positive|].
  pose proof (text_freq_positive str_lower labels) as Hpos.
  set (freq := text_freq str_lower labels) in *.
  assert (HT : 0 < sum (values freq)).
  { subst freq. rewrite text_freq_total.
    destruct labels; [congruence|simpl; lia]. }
  assert (Hnn : Forall (fun v => 0 <= v) (values freq)).
  { unfold values. apply Forall_map.
    eapply Forall_impl; [|exact Hpos]. simpl. intros; lia. }
  apply Forall_map. rewrite Forall_forall in *. intros [k v] Hin. simpl.
  assert (H1 : 1 <= v) by exact (Hpos (k, v) Hin).
  assert (H2 : v <= sum (values freq)).
  { apply sum_member_le; [now apply Forall_forall|].
    unfold values. change v with (snd (k, v)). now apply in_map. }
  assert (HTq : (0 < inject_Z (sum (values freq)))%Q).
  { change 0%Q with (inject_Z 0). now rewrite <- Zlt_Qlt. }
  split.
  - apply Qlt_shift_div_l; [exact HTq|].
    rewrite Qmult_0_l. change 0%Q with (inject_Z 0).
    rewrite <- Zlt_Qlt. lia.
  - apply Qle_shift_div_r; [exact HTq|].
    rewrite Qmult_1_l. now rewrite <- Zle_Qle.
Qed.

Lemma tables_invariants_witness :
  ["Street"; "street"; "LANE"] <> []
  /\ exists freq prob,
    build_tables lower ["Street"; "street"; "LANE"] = Ok (freq, prob)
    /\ keys prob = keys freq
    /\ Forall (fun e => 1 <= snd e) freq
    /\ Forall (fun e => 0 < snd e /\ snd e <= 1)%Q prob.
Proof.
  assert (Hne : ["Street"; "street"; "LANE"] <> [])
    by (intros H; discriminate H).
  split; [exact Hne|].
  exact (tables_invariants lower ["Street"; "street"; "LANE"] Hne).
Defined.

(** ** Contrastive ranker *)

Lemma rank_difference_perm (prob_a prob_b : dict Q) :
  Permutation (rank_difference prob_a prob_b)
    (dict_comprehension (difference prob_a prob_b) (keys prob_b)).
Proof. unfold rank_difference, items. apply sorted_reverse_perm. Qed.

(** C2: the ranking has exactly one entry per distinct key of [prob_b]:
    its keys are pairwise distinct, they are exactly the keys of
    [prob_b], so a key that occurs only in [prob_a] is never among them,
    and there are as many entries as [prob_b] has distinct keys. *)
Theorem rank_difference_keys (prob_a prob_b : dict Q) :
  let out := rank_difference prob_a prob_b in
  NoDup (map fst out)
  /\ (forall w, In w (map fst out) <-> In w (keys prob_b))
  /\ (forall w, In w (keys prob_a) -> ~ In w (keys prob_b) ->
        ~ In w (map fst out))
  /\ List.length out = List.length (nodup string_dec (keys prob_b)).
Proof.
  intros out.
  pose proof (rank_difference_perm prob_a prob_b) as Hperm.
  fold out in Hperm.
  assert (Hkeys : Permutation (map fst out)
            (keys (dict_comprehension (difference prob_a prob_b)
                     (keys prob_b)))).
  { unfold keys at 1. now apply Permutation_map. }
  assert (Hnd : NoDup (map fst out)).
  { eapply Permutation_NoDup; [symmetry; exact Hkeys|].
    apply dict_comprehension_NoDup. }
  assert (Hin : forall w, In w (map fst out) <-> In w (keys prob_b)).
  { intros w. split; intros H.
    - apply (dict_comprehension_keys (difference prob_a prob_b)).
      eapply Permutation_in; [exact Hkeys|exact H].
    - eapply Permutation_in; [symmetry; exact Hkeys|].
      apply dict_comprehension_keys. exact H. }
  split; [exact Hnd|]. split; [exact Hin|]. split.
  - intros w _ Hb Hout. apply Hb. now apply Hin.
  - rewrite <- (length_map fst out).
    apply Permutation_length. apply NoDup_Permutation.
    + exact Hnd.
    + apply NoDup_nodup.
    + intros w. rewrite nodup_In. apply Hin.
Qed.

(** C5: every entry of the ranking for a key [w] carries
    [prob_a.get(w, 0) - prob_b.get(w, 0)]; the ranking is a rearrangement
    of these entries taken in the iteration order of [prob_b], sorted by
    the difference in descending order; entries of equal difference keep
    the iteration order of [prob_b]; and the worked scenario gives
    street 0.3, lane -0.1. *)
Theorem rank_difference_sorted_stable (prob_a prob_b : dict Q) :
  NoDup (keys prob_b) ->
  let entries :=
    map (fun w => (w, (dict_get prob_a w 0 - dict_get prob_b w 0)%Q))
        (keys prob_b) in
  let out := rank_difference prob_a prob_b in
  (forall w d, In (w, d) out ->
     d = (dict_get prob_a w 0 - dict_get prob_b w 0)%Q)
  /\ Permutation out entries
  /\ StronglySorted (fun x y => snd y <= snd x)%Q out
  /\ (forall v, filter (fun e => Qeq_bool (snd e) v) out
                = filter (fun e => Qeq_bool (snd e) v) entries)
  /\ rank_difference [("street", 1 # 2)] [("street", 1 # 5); ("lane", 1 # 10)]
     = [("street", 3 # 10); ("lane", - 1 # 10)].
Proof.
  intros Hnd entries out.
  assert (Hcomp : dict_comprehension (difference prob_a prob_b) (keys prob_b)
                  = entries).
  { now apply dict_comprehension_distinct. }
  split; [|split; [|split; [|split]]].
  - intros w d Hin.
    apply (dict_comprehension_values (difference prob_a prob_b)
             (keys prob_b)).
    eapply Permutation_in; [apply rank_difference_perm|exact Hin].
  - rewrite <- Hcomp. apply rank_difference_perm.
  - apply (sorted_reverse_descending snd).
  - intros v. rewrite <- Hcomp.
    apply (sorted_reverse_stable snd v).
  - reflexivity.
Qed.

Lemma rank_difference_sorted_stable_witness :
  NoDup (keys [("x", 1 # 5); ("y", 1 # 5); ("a", 1 # 10)])
  /\ filter (fun e => Qeq_bool (snd e) (- 1 # 5))
       (rank_difference [("a", 1 # 2)]
          [("x", 1 # 5); ("y", 1 # 5); ("a", 1 # 10)])
     = [("x", (0 - (1 # 5))%Q); ("y", (0 - (1 # 5))%Q)].
Proof.
  assert (Hnd : NoDup (keys [("x", 1 # 5); ("y", 1 # 5); ("a", 1 # 10)])).
  { simpl. repeat constructor; simpl; intuition discriminate. }
  split; [exact Hnd|].
  exact (proj1 (proj2 (proj2 (proj2
    (rank_difference_sorted_stable [("a", 1 # 2)]
       [("x", 1 # 5); ("y", 1 # 5); ("a", 1 # 10)] Hnd)))) (- 1 # 5)).
Defined.

(** ** Spatial proximity partitioner *)

(** The scenario of the specification, with point geometries. *)
Example partition_scenario :
  partition [building_at 0 0]
    [point_text "Shop" 50 0; point_text "Farm" 200 0] "building" 100
  = (["Shop"], []).
Proof. reflexivity. Qed.

(** C3: the loop tests the distance from the text's geometry, not from its
    centroid, to the anchor's centroid.  The label "Mill" is a rectangle
    from x = 95 to x = 125: its centroid (110, 0) is 110 m from the
    anchor at the origin, beyond the 100 m threshold, but its nearest
    edge is 95 m away, and the loop appends it to [adjacent]; by the
    specification it contributes nothing. *)
Theorem partition_measures_from_geometry :
  let anchors := [building_at 0 0] in
  let texts := [point_text "Shop" 50 0; box_text "Mill" 95 (-5) 125 5] in
  text_centroid (box_text "Mill" 95 (-5) 125 5) = ((220 # 2)%Q, (0 # 2)%Q)
  /\ euclid_le (text_centroid (box_text "Mill" 95 (-5) 125 5))
       (centroid (building_at 0 0)) 100
     = false
  /\ partition anchors texts "building" 100 = (["Shop"; "Mill"], [])
  /\ spec_partition anchors texts "building" 100 = (["Shop"], []).
Proof. repeat split. Qed.

(** C4: the two output lists hold one entry per matching anchor-text
    pair, in loop order and without deduplication; a text in range of a
    target anchor and of a non-target anchor is in both lists; and a text
    in range of two target anchors and one other anchor is appended twice
    to [adjacent] and once to [other]. *)
Theorem partition_keeps_every_match {G : Type} `{Geometry G}
    (predictions : list patch_row) (spotted_text : list (text_row G))
    (target_label : string) (distance : Q) :
  let out := partition predictions spotted_text target_label distance in
  fst out
  = map (fun m => text (snd m))
      (matches (is_target target_label) predictions spotted_text distance)
  /\ snd out
     = map (fun m => text (snd m))
         (matches (fun row => negb (is_target target_label row))
            predictions spotted_text distance)
  /\ (forall t a b,
        In t spotted_text -> In a predictions -> In b predictions ->
        predicted_label a = target_label ->
        predicted_label b <> target_label ->
        within a distance t = true -> within b distance t = true ->
        In (text t) (fst out) /\ In (text t) (snd out))
  /\ partition [building_at 0 0; field_at 10 0; building_at 60 0]
       [point_text "Shop" 50 0] "building" 100
     = (["Shop"; "Shop"], ["Shop"]).
Proof.
  intros out. subst out. rewrite partition_flat_map. cbn [fst snd].
  split; [now rewrite matches_flat_map|].
  split; [now rewrite matches_flat_map|].
  split; [|reflexivity].
  intros t a b Ht Ha Hb Hta Htb Hwa Hwb. split.
  - apply in_flat_map. exists a. split.
    + apply filter_In. split; [exact Ha|].
      unfold is_target. now apply String.eqb_eq.
    + now apply labels_within_In.
  - apply in_flat_map. exists b. split.
    + apply filter_In. split; [exact Hb|].
      unfold is_target. apply String.eqb_neq in Htb. now rewrite Htb.
    + now apply labels_within_In.
Qed.

(** C8: with no anchors both output lists are empty. *)
Theorem partition_no_anchors {G : Type} `{Geometry G}
    (spotted_text : list (text_row G)) (target_label : string)
    (distance : Q) :
  partition [] spotted_text target_label distance = ([], []).
Proof. reflexivity. Qed.

(** ** Frame *)

(** C9: neither cell changes its inputs.  In any store that holds the two
    frames and the two probability tables, the proximity cell and the
    ranking cell run without an exception; the store afterwards is the
    store before followed by new objects, so every object that existed
    before the call, the inputs among them, is in place and unchanged;
    and the results are new objects, at locations unused before, holding
    [partition] and [rank_difference] of the inputs. *)
Theorem cells_leave_inputs_unchanged {G : Type} `{Geometry G}
    (s : store (G:=G)) (predictions spotted_text prob_a prob_b : loc)
    (rows : list patch_row) (texts : list (text_row G)) (a b : dict Q)
    (target_label : string) (distance : Q) :
  nth_error s predictions = Some (PatchFrame rows) ->
  nth_error s spotted_text = Some (TextFrame texts) ->
  nth_error s prob_a = Some (ProbTable a) ->
  nth_error s prob_b = Some (ProbTable b) ->
  (exists adjacent other fresh,
     runStateT (partition_cell predictions spotted_text target_label distance)
       s
     = Ok ((adjacent, other), (s ++ fresh)%list)
     /\ (forall l o, nth_error s l = Some o ->
                     nth_error (s ++ fresh)%list l = Some o)
     /\ nth_error s adjacent = None
     /\ nth_error s other = None
     /\ nth_error (s ++ fresh)%list adjacent
        = Some (StrList (fst (partition rows texts target_label distance)))
     /\ nth_error (s ++ fresh)%list other
        = Some (StrList (snd (partition rows texts target_label distance))))
  /\ (exists ranking fresh,
        runStateT (rank_cell prob_a prob_b) s
        = Ok (ranking, (s ++ fresh)%list)
        /\ (forall l o, nth_error s l = Some o ->
                        nth_error (s ++ fresh)%list l = Some o)
        /\ nth_error s ranking = None
        /\ nth_error (s ++ fresh)%list ranking
           = Some (PairList (rank_difference a b))).
Proof.
  intros Ep Et Ea Eb. split.
  - destruct (run_partition_cell predictions spotted_text rows texts
                target_label distance s Ep Et) as [temps E].
    eexists. eexists. eexists. split; [exact E|].
    split; [intros l o; apply nth_error_app_old|].
    split; [apply nth_error_None; lia|].
    split; [apply nth_error_None; lia|].
    split.
    + rewrite <- (Nat.add_0_r (List.length s)).
      now rewrite nth_error_app_at.
    + now rewrite nth_error_app_at.
  - eexists. eexists. split; [exact (run_rank_cell _ _ _ _ _ Ea Eb)|].
    split; [intros l o; apply nth_error_app_old|].
    split; [apply nth_error_None; lia|].
    now rewrite nth_error_app_at.
Qed.

Lemma cells_leave_inputs_unchanged_witness :
  (exists adjacent other fresh,
     runStateT (partition_cell 0%nat 1%nat "building" 100) example_store
     = Ok ((adjacent, other), (example_store ++ fresh)%list)
     /\ (forall l o, nth_error example_store l = Some o ->
                     nth_error (example_store ++ fresh)%list l = Some o)
     /\ nth_error example_store adjacent = None
     /\ nth_error example_store other = None
     /\ nth_error (example_store ++ fresh)%list adjacent
        = Some (StrList ["Shop"; "Mill"])
     /\ nth_error (example_store ++ fresh)%list other
        = Some (StrList ["Shop"; "Mill"]))
  /\ (exists ranking fresh,
        runStateT (rank_cell 2%nat 3%nat) example_store
        = Ok (ranking, (example_store ++ fresh)%list)
        /\ (forall l o, nth_error example_store l = Some o ->
                        nth_error (example_store ++ fresh)%list l = Some o)
        /\ nth_error example_store ranking = None
        /\ nth_error (example_store ++ fresh)%list ranking
           = Some (PairList [("street", 3 # 10); ("lane", - 1 # 10)])).
Proof.
  exact (cells_leave_inputs_unchanged example_store 0%nat 1%nat 2%nat 3%nat
           [building_at 0 0; field_at 10 0]
           [point_text "Shop" 50 0; box_text "Mill" 95 (-5) 125 5]
           [("street", 1 # 2)] [("street", 1 # 5); ("lane", 1 # 10)]
           "building" 100
           eq_refl eq_refl eq_refl eq_refl).
Defined.

(** * Further properties of the notebook *)

(** ** Tables and proximity loop *)

(** X1: the frequencies add up to the number of labels, so the
    probability of a word is its number of case-insensitive occurrences
    divided by the length of the label list. *)
Theorem frequencies_sum_to_label_count (str_lower : string -> string)
    (labels : list string) :
  sum (values (text_freq str_lower labels)) = Z.of_nat (List.length labels)
  /\ exists prob,
       text_prob (text_freq str_lower labels) = Ok prob
       /\ forall k, In k (keys prob) ->
            dict_get prob k 0%Q
            = (inject_Z (lowered_occurrences str_lower k labels)
               / inject_Z (Z.of_nat (List.length labels)))%Q.
Proof.
  split; [apply text_freq_total|].
  eexists. split; [apply text_prob_total|].
  intros k Hk. rewrite keys_normalise in Hk.
  rewrite dict_get_normalise by exact Hk.
  now rewrite text_freq_get.
Qed.

(** X2: every anchor-text pair in range lands in exactly one of the two
    lists: together the lists are a rearrangement of the texts of all
    pairs in range, and the two lengths printed after the loop add up to
    at most the number of anchors times the number of texts. *)
Theorem partition_exhaustive {G : Type} `{Geometry G}
    (predictions : list patch_row) (spotted_text : list (text_row G))
    (target_label : string) (distance : Q) :
  let out := partition predictions spotted_text target_label distance in
  Permutation (fst out ++ snd out)%list
    (map (fun m => text (snd m))
       (matches (fun _ => true) predictions spotted_text distance))
  /\ (List.length (fst out) + List.length (snd out)
      <= List.length predictions * List.length spotted_text)%nat.
Proof.
  intros out. subst out. rewrite partition_flat_map. cbn [fst snd].
  assert (Hperm : Permutation
            (flat_map (fun row => labels_within spotted_text row distance)
               (filter (is_target target_label) predictions)
             ++ flat_map (fun row => labels_within spotted_text row distance)
                  (filter (fun row => negb (is_target target_label row))
                     predictions))%list
            (map (fun m => text (snd m))
               (matches (fun _ => true) predictions spotted_text distance))).
  { rewrite matches_flat_map, filter_true. apply flat_map_split. }
  split; [exact Hperm|].
  rewrite <- length_app, (Permutation_length Hperm), length_map.
  unfold matches. rewrite <- length_prod. apply filter_length_le.
Qed.

(** X3: the loop over a concatenation of anchor lists gives the
    concatenation of the lists of the two parts, bucket by bucket, so
    partial results computed per block of anchors can be joined. *)
Theorem partition_of_concatenation {G : Type} `{Geometry G}
    (p1 p2 : list patch_row) (spotted_text : list (text_row G))
    (target_label : string) (distance : Q) :
  partition (p1 ++ p2)%list spotted_text target_label distance
  = ((fst (partition p1 spotted_text target_label distance)
        ++ fst (partition p2 spotted_text target_label distance))%list,
     (snd (partition p1 spotted_text target_label distance)
        ++ snd (partition p2 spotted_text target_label distance))%list).
Proof.
  rewrite !partition_flat_map. cbn [fst snd].
  now rewrite !filter_app, !flat_map_app.
Qed.

(** X4: the row order of the two frames does not matter for the counts:
    after reordering the anchors and the text detections, both lists have
    the same lengths and every word has the same frequency in both
    frequency tables. *)
Theorem frequencies_ignore_row_order {G : Type} `{Geometry G}
    (str_lower : string -> string) (p p' : list patch_row)
    (t t' : list (text_row G)) (target_label : string) (distance : Q) :
  Permutation p p' -> Permutation t t' ->
  let out := partition p t target_label distance in
  let out' := partition p' t' target_label distance in
  List.length (fst out') = List.length (fst out)
  /\ List.length (snd out') = List.length (snd out)
  /\ forall k,
       dict_get (text_freq str_lower (fst out')) k 0
       = dict_get (text_freq str_lower (fst out)) k 0
       /\ dict_get (text_freq str_lower (snd out')) k 0
          = dict_get (text_freq str_lower (snd out)) k 0.
Proof.
  intros Hp Ht out out'.
  destruct (partition_perm p p' t t' target_label distance Hp Ht)
    as [Hfst Hsnd].
  fold out in Hfst, Hsnd. fold out' in Hfst, Hsnd.
  split; [symmetry; now apply Permutation_length|].
  split; [symmetry; now apply Permutation_length|].
  intros k. rewrite !text_freq_get.
  split; symmetry; now apply lowered_occurrences_perm.
Qed.

Lemma frequencies_ignore_row_order_witness :
  Permutation [building_at 0 0; field_at 10 0]
    [field_at 10 0; building_at 0 0]
  /\ dict_get
       (text_freq lower
          (fst (partition [field_at 10 0; building_at 0 0]
                  [box_text "Mill" 95 (-5) 125 5; point_text "Shop" 50 0]
                  "building" 100))) "mill" 0
     = dict_get
         (text_freq lower
            (fst (partition [building_at 0 0; field_at 10 0]
                    [point_text "Shop" 50 0; box_text "Mill" 95 (-5) 125 5]
                    "building" 100))) "mill" 0.
Proof.
  split; [apply perm_swap|].
  exact (proj1 (proj2 (proj2
    (frequencies_ignore_row_order lower
       [building_at 0 0; field_at 10 0] [field_at 10 0; building_at 0 0]
       [point_text "Shop" 50 0; box_text "Mill" 95 (-5) 125 5]
       [box_text "Mill" 95 (-5) 125 5; point_text "Shop" 50 0]
       "building" 100 (perm_swap _ _ []) (perm_swap _ _ []))) "mill")).
Defined.

(** X5: running the proximity cell again does not accumulate.  Two runs
    in a row return four distinct new lists; the lists of the second run
    hold the same contents as those of the first, the lists of the first
    run are not touched by the second, and every object that existed
    before is unchanged. *)
Theorem partition_cell_rerun {G : Type} `{Geometry G}
    (s : store (G:=G)) (predictions spotted_text : loc)
    (rows : list patch_row) (texts : list (text_row G))
    (target_label : string) (distance : Q) :
  nth_error s predictions = Some (PatchFrame rows) ->
  nth_error s spotted_text = Some (TextFrame texts) ->
  exists a1 o1 a2 o2 s1 s2,
    runStateT (partition_cell predictions spotted_text target_label distance)
      s = Ok ((a1, o1), s1)
    /\ runStateT
         (partition_cell predictions spotted_text target_label distance) s1
       = Ok ((a2, o2), s2)
    /\ NoDup [a1; o1; a2; o2]
    /\ nth_error s2 a1
       = Some (StrList (fst (partition rows texts target_label distance)))
    /\ nth_error s2 a2
       = Some (StrList (fst (partition rows texts target_label distance)))
    /\ nth_error s2 o1
       = Some (StrList (snd (partition rows texts target_label distance)))
    /\ nth_error s2 o2
       = Some (StrList (snd (partition rows texts target_label distance)))
    /\ (forall l o, nth_error s l = Some o -> nth_error s2 l = Some o).
Proof.
  intros Ep Et.
  destruct (run_partition_cell predictions spotted_text rows texts
              target_label distance s Ep Et) as [temps1 E1].
  set (s1 := (s ++ [StrList (fst (partition rows texts target_label
                                     distance));
                    StrList (snd (partition rows texts target_label
                                     distance))] ++ temps1)%list) in *.
  assert (Ep1 : nth_error s1 predictions = Some (PatchFrame rows))
    by now apply nth_error_app_old.
  assert (Et1 : nth_error s1 spotted_text = Some (TextFrame texts))
    by now apply nth_error_app_old.
  destruct (run_partition_cell predictions spotted_text rows texts
              target_label distance s1 Ep1 Et1) as [temps2 E2].
  assert (Hlen : (List.length s + 2 <= List.length s1)%nat).
  { subst s1. rewrite !length_app. simpl. lia. }
  assert (Ea1 : nth_error s1 (List.length s)
                = Some (StrList (fst (partition rows texts target_label
                                        distance)))).
  { subst s1. rewrite <- (Nat.add_0_r (List.length s)).
    now rewrite nth_error_app_at. }
  assert (Eo1 : nth_error s1 (List.length s + 1)
                = Some (StrList (snd (partition rows texts target_label
                                        distance)))).
  { subst s1. now rewrite nth_error_app_at. }
  do 6 eexists. split; [exact E1|]. split; [exact E2|].
  split.
  { repeat constructor; simpl; lia. }
  split; [now apply nth_error_app_old|].
  split.
  { rewrite <- (Nat.add_0_r (List.length s1)).
    now rewrite nth_error_app_at. }
  split; [now apply nth_error_app_old|].
  split; [now rewrite nth_error_app_at|].
  intros l o Hl. apply nth_error_app_old. now apply nth_error_app_old.
Qed.

Lemma partition_cell_rerun_witness :
  exists a1 o1 a2 o2 s1 s2,
    runStateT (partition_cell 0%nat 1%nat "building" 100) example_store
    = Ok ((a1, o1), s1)
    /\ runStateT (partition_cell 0%nat 1%nat "building" 100) s1
       = Ok ((a2, o2), s2)
    /\ NoDup [a1; o1; a2; o2]
    /\ nth_error s2 a1 = Some (StrList ["Shop"; "Mill"])
    /\ nth_error s2 a2 = Some (StrList ["Shop"; "Mill"])
    /\ nth_error s2 o1 = Some (StrList ["Shop"; "Mill"])
    /\ nth_error s2 o2 = Some (StrList ["Shop"; "Mill"])
    /\ (forall l o, nth_error example_store l = Some o ->
                    nth_error s2 l = Some o).
Proof.
  exact (partition_cell_rerun example_store 0%nat 1%nat
           [building_at 0 0; field_at 10 0]
           [point_text "Shop" 50 0; box_text "Mill" 95 (-5) 125 5]
           "building" 100 eq_refl eq_refl).
Defined.

(** ** Looking up one word *)


(** ** From the frames to the ranking *)

Lemma rank_difference_words (prob_a prob_b : dict Q) :
  NoDup (keys prob_b) ->
  Permutation (map fst (rank_difference prob_a prob_b)) (keys prob_b).
Proof.
  intros Hnd.
  rewrite (Permutation_map fst (rank_difference_perm prob_a prob_b)).
  rewrite dict_comprehension_distinct by exact Hnd.
  rewrite map_map. simpl. now rewrite map_id.
Qed.

Lemma rank_difference_values (prob_a prob_b : dict Q) (w : string) (d : Q) :
  In (w, d) (rank_difference prob_a prob_b) ->
  d = difference prob_a prob_b w.
Proof.
  intros Hin.
  apply (dict_comprehension_values (difference prob_a prob_b) (keys prob_b)).
  eapply Permutation_in; [apply rank_difference_perm|exact Hin].
Qed.

Section NotebookFacts.

Context {G : Type} `{Geometry G}.

Variable str_lower : string -> string.

Lemma notebook_difference_total (predictions : list patch_row)
    (spotted_text : list (text_row G)) :
  notebook_difference str_lower predictions spotted_text
  = Ok (rank_difference
          (map (normalise
                  (Z.of_nat
                     (List.length (adjacent_text predictions spotted_text))))
             (building_text_freq str_lower predictions spotted_text))
          (map (normalise
                  (Z.of_nat
                     (List.length (other_text predictions spotted_text))))
             (other_text_freq str_lower predictions spotted_text))).
Proof.
  unfold notebook_difference, building_text_prob, other_text_prob,
    building_text_freq, other_text_freq.
  now rewrite !text_prob_total.
Qed.


(** X8: every ranked word carries the relative frequency of the word in
    [adjacent_text] minus its relative frequency in [other_text]; the
    value is at least -1 and below 1, and it is negative for a word that
    does not occur in [adjacent_text]. *)
Theorem notebook_difference_values (predictions : list patch_row)
    (spotted_text : list (text_row G)) :
  exists ranking,
    notebook_difference str_lower predictions spotted_text = Ok ranking
    /\ forall w d, In (w, d) ranking ->
         (d == relative_frequency str_lower
                 (adjacent_text predictions spotted_text) w
               - relative_frequency str_lower
                   (other_text predictions spotted_text) w)%Q
         /\ (- (1) <= d)%Q /\ (d < 1)%Q
         /\ (~ (exists l,
                  In l (adjacent_text predictions spotted_text)
                  /\ str_lower l = w)
             -> (d < 0)%Q).
Proof.
  eexists. split; [apply notebook_difference_total|].
  intros w d Hin.
  pose proof (rank_difference_values _ _ _ _ Hin) as Hd.
  assert (Hw : In w (map fst (rank_difference
            (map (normalise (Z.of_nat (List.length
               (adjacent_text predictions spotted_text))))
               (building_text_freq str_lower predictions spotted_text))
            (map (normalise (Z.of_nat (List.length
               (other_text predictions spotted_text))))
               (other_text_freq str_lower predictions spotted_text))))).
  { change w with (fst (w, d)). now apply in_map. }
  assert (Hvoc : exists l,
             In l (other_text predictions spotted_text) /\ str_lower l = w).
  { apply text_freq_keys.
    rewrite <- (keys_normalise
                  (Z.of_nat (List.length
                     (other_text predictions spotted_text)))).
    eapply Permutation_in; [apply rank_difference_words|exact Hw].
    rewrite keys_normalise. apply text_freq_NoDup. }
  unfold difference, building_text_freq, other_text_freq in Hd.
  assert (Hval : (d == relative_frequency str_lower
                         (adjacent_text predictions spotted_text) w
                       - relative_frequency str_lower
                           (other_text predictions spotted_text) w)%Q).
  { rewrite Hd. now rewrite !prob_get_relative_frequency. }
  pose proof (relative_frequency_range str_lower
                (adjacent_text predictions spotted_text) w) as [Ha0 Ha1].
  pose proof (relative_frequency_range str_lower
                (other_text predictions spotted_text) w) as [Hb0 Hb1].
  pose proof (relative_frequency_pos str_lower _ w Hvoc) as Hbpos.
  split; [exact Hval|].
  split; [rewrite Hval; lra|].
  split; [rewrite Hval; lra|].
  intros Hn. rewrite Hval.
  rewrite (relative_frequency_zero str_lower _ w Hn). lra.
Qed.

(** X9: the frequency table lists the words in the order of their first
    appearance in the label list, so in the ranking words of equal
    difference follow the order in which they first appear in
    [other_text]. *)
Theorem ranking_ties_by_first_appearance (predictions : list patch_row)
    (spotted_text : list (text_row G)) :
  keys (other_text_freq str_lower predictions spotted_text)
  = first_occurrences
      (map str_lower (other_text predictions spotted_text))
  /\ exists building_prob other_prob ranking,
       building_text_prob str_lower predictions spotted_text
       = Ok building_prob
       /\ other_text_prob str_lower predictions spotted_text
          = Ok other_prob
       /\ notebook_difference str_lower predictions spotted_text
          = Ok ranking
       /\ forall v,
            filter (fun e => Qeq_bool (snd e) v) ranking
            = filter (fun e => Qeq_bool (snd e) v)
                (map (fun w => (w, difference building_prob other_prob w))
                   (first_occurrences
                      (map str_lower
                         (other_text predictions spotted_text)))).
Proof.
  split; [apply text_freq_key_order|].
  do 3 eexists.
  split; [apply text_prob_total|]. split; [apply text_prob_total|].
  split; [apply notebook_difference_total|].
  intros v.
  set (pa := map _ (building_text_freq str_lower predictions spotted_text)).
  set (pb := map (normalise
                    (Z.of_nat
                       (List.length (other_text predictions spotted_text))))
               (other_text_freq str_lower predictions spotted_text)).
  assert (Hkeys : keys pb
                  = first_occurrences
                      (map str_lower (other_text predictions spotted_text))).
  { subst pb. rewrite keys_normalise. apply text_freq_key_order. }
  rewrite <- Hkeys.
  change (filter (fun e => Qeq_bool (snd e) v) (rank_difference pa pb)
          = filter (fun e => Qeq_bool (snd e) v)
              (map (fun w => (w, difference pa pb w)) (keys pb))).
  rewrite <- (dict_comprehension_distinct (difference pa pb) (keys pb)).
  - apply (sorted_reverse_stable snd v).
  - rewrite Hkeys. apply first_occurrences_from_NoDup.
Qed.

End NotebookFacts.

(** ** Printed and plotted slices *)

(** X10: when the ranking has at least [2 n] entries, the first [n] and
    the last [n] entries are disjoint parts of it, and every difference
    among the first [n] is at least every difference among the last [n].
    The printed lists take [n = 5] and the bar charts [n = 10]. *)
Theorem ranking_slices_ordered (prob_a prob_b : dict Q) (n : nat) :
  (2 * n <= List.length (rank_difference prob_a prob_b))%nat ->
  let ranking := rank_difference prob_a prob_b in
  (exists middle,
     ranking
     = (top_terms n ranking ++ middle ++ bottom_terms n ranking)%list)
  /\ forall e e', In e (top_terms n ranking) ->
                  In e' (bottom_terms n ranking) ->
                  (snd e' <= snd e)%Q.
Proof.
  intros Hlen ranking. fold ranking in Hlen.
  destruct n as [|n].
  - split.
    + exists []. now rewrite top_terms_firstn, bottom_terms_zero.
    + intros e e' He. rewrite top_terms_firstn in He. destruct He.
  - rewrite top_terms_firstn, bottom_terms_skipn.
    set (len := List.length ranking) in *.
    assert (Hsplit : skipn (S n) ranking
                     = (firstn (len - 2 * S n) (skipn (S n) ranking)
                        ++ skipn (len - S n) ranking)%list).
    { rewrite <- (firstn_skipn (len - 2 * S n) (skipn (S n) ranking)) at 1.
      f_equal. rewrite skipn_skipn. f_equal. lia. }
    assert (Hall : ranking
                   = (firstn (S n) ranking
                      ++ firstn (len - 2 * S n) (skipn (S n) ranking)
                      ++ skipn (len - S n) ranking)%list).
    { rewrite <- Hsplit. symmetry. apply firstn_skipn. }
    split; [eexists; exact Hall|].
    intros e e' He He'.
    pose proof (sorted_reverse_descending snd
                  (items (dict_comprehension (difference prob_a prob_b)
                            (keys prob_b)))) as Hs.
    change (StronglySorted (descending snd) ranking) in Hs.
    rewrite Hall in Hs.
    apply (sorted_app_order (descending snd) _ _ Hs e e' He).
    apply in_or_app. now right.
Qed.

Lemma ranking_slices_ordered_witness :
  (2 * 1 <= List.length
              (rank_difference [("street", 1 # 2)]
                 [("street", 1 # 5); ("lane", 1 # 10)]))%nat
  /\ forall e e',
       In e (top_terms 1
               (rank_difference [("street", 1 # 2)]
                  [("street", 1 # 5); ("lane", 1 # 10)])) ->
       In e' (bottom_terms 1
                (rank_difference [("street", 1 # 2)]
                   [("street", 1 # 5); ("lane", 1 # 10)])) ->
       (snd e' <= snd e)%Q.
Proof.
  assert (Hlen : (2 * 1 <= List.length
                             (rank_difference [("street", 1 # 2)]
                                [("street", 1 # 5); ("lane", 1 # 10)]))%nat)
    by (simpl; lia).
  split; [exact Hlen|].
  exact (proj2 (ranking_slices_ordered [("street", 1 # 2)]
                  [("street", 1 # 5); ("lane", 1 # 10)] 1%nat Hlen)).
Defined.

(** X11: when the ranking has at most [n] entries, the first [n] and the
    last [n] entries are both the whole ranking: with at most five
    distinct words in [other_text] the lists printed under "Building
    labels" and "Other labels" are the same list. *)
Theorem short_ranking_sliced_whole (n : nat) (ranking : list (string * Q)) :
  (List.length ranking <= n)%nat ->
  top_terms n ranking = ranking /\ bottom_terms n ranking = ranking.
Proof.
  intros Hlen. split.
  - rewrite top_terms_firstn. now apply firstn_all2.
  - destruct n as [|n]; [apply bottom_terms_zero|].
    rewrite bottom_terms_skipn.
    replace (List.length ranking - S n)%nat with 0%nat by lia.
    reflexivity.
Qed.

Lemma short_ranking_sliced_whole_witness :
  (List.length (rank_difference [("street", 1 # 2)]
                  [("street", 1 # 5); ("lane", 1 # 10)]) <= 5)%nat
  /\ building_labels (rank_difference [("street", 1 # 2)]
                        [("street", 1 # 5); ("lane", 1 # 10)])
     = other_labels (rank_difference [("street", 1 # 2)]
                       [("street", 1 # 5); ("lane", 1 # 10)]).
Proof.
  assert (Hlen : (List.length (rank_difference [("street", 1 # 2)]
                                 [("street", 1 # 5); ("lane", 1 # 10)])
                  <= 5)%nat) by (simpl; lia).
  split; [exact Hlen|].
  destruct (short_ranking_sliced_whole 5
              (rank_difference [("street", 1 # 2)]
                 [("street", 1 # 5); ("lane", 1 # 10)]) Hlen) as [Ht Hb].
  unfold building_labels, other_labels.
  rewrite Hb. exact Ht.
Defined.

(** ** Scatter plot tables *)

(** X12: the de-duplicated table of alphabetic labels has pairwise
    distinct texts, holds exactly the alphabetic texts of [data], and
    keeps for each text the first row of [data] with that text. *)
Theorem data_text_unique_first_rows (str_isalpha : string -> bool)
    (data : list data_row) :
  let unique := data_text_unique str_isalpha data in
  NoDup (map col_text unique)
  /\ (forall w, In w (map col_text unique)
                <-> In w (map col_text data) /\ str_isalpha w = true)
  /\ (forall r, In r unique ->
        find (fun r' => String.eqb (col_text r') (col_text r)) data
        = Some r).
Proof.
  intros unique. subst unique. unfold data_text_unique, drop_duplicates.
  split; [|split].
  - rewrite drop_duplicates_from_texts.
    apply first_occurrences_from_NoDup.
  - intros w. rewrite drop_duplicates_from_texts.
    rewrite first_occurrences_from_In. unfold data_text.
    rewrite !in_map_iff. split.
    + intros [[r [<- Hr]] _]. apply filter_In in Hr.
      split; [exists r|]; tauto.
    + intros [[r [<- Hr]] Hw]. split; [|tauto].
      exists r. split; [reflexivity|]. apply filter_In. tauto.
  - intros r Hr.
    pose proof (drop_duplicates_from_first _ _ _ Hr) as Hfind.
    apply drop_duplicates_from_In in Hr. destruct Hr as [Hr _].
    unfold data_text in *. apply filter_In in Hr. destruct Hr as [_ Halpha].
    rewrite find_filter_same in Hfind; [exact Hfind|].
    intros r' Heq. apply String.eqb_eq in Heq. now rewrite Heq.
Qed.

(** X13: filtering the alphabetic labels and dropping duplicate texts can
    be done in either order. *)
Theorem data_text_unique_commutes (str_isalpha : string -> bool)
    (data : list data_row) :
  data_text_unique str_isalpha data
  = data_text str_isalpha (drop_duplicates data).
Proof.
  unfold data_text_unique, data_text, drop_duplicates.
  apply drop_duplicates_from_filter. tauto.
Qed.

(** X14: when the embedding has one point per text detection, the table
    [data] is built without error, with one row per detection carrying
    the lowercased text, and the de-duplicated table of alphabetic labels
    lists the distinct alphabetic lowercased texts in the order of their
    first appearance. *)
Theorem data_text_unique_is_vocabulary {G : Type}
    (str_lower : string -> string) (str_isalpha : string -> bool)
    (embeddings_tsne : list (Q * Q)) (spotted_text : list (text_row G)) :
  List.length embeddings_tsne = List.length spotted_text ->
  exists data,
    make_data embeddings_tsne (text_labels str_lower spotted_text)
    = inr data
    /\ map col_text data = map str_lower (map text spotted_text)
    /\ map col_text (data_text_unique str_isalpha data)
       = first_occurrences
           (filter str_isalpha (map str_lower (map text spotted_text))).
Proof.
  intros Hlen.
  destruct (make_data embeddings_tsne (text_labels str_lower spotted_text))
    as [e|data] eqn:E.
  - exfalso. unfold make_data, text_labels in E.
    rewrite !length_map, Hlen, Nat.eqb_refl in E. discriminate E.
  - exists data. split; [reflexivity|].
    apply make_data_texts in E. destruct E as [Htexts _].
    split; [exact Htexts|].
    unfold data_text_unique, drop_duplicates.
    rewrite drop_duplicates_from_texts.
    fold (first_occurrences (map col_text (data_text str_isalpha data))).
    unfold data_text.
    assert (Hmf : map col_text
                    (filter (fun r => str_isalpha (col_text r)) data)
                  = filter str_isalpha (map col_text data)).
    { clear. induction data as [|r data IH]; simpl.
      - reflexivity.
      - destruct (str_isalpha (col_text r)); simpl; now rewrite IH. }
    now rewrite Hmf, Htexts.
Qed.

Lemma data_text_unique_is_vocabulary_witness :
  List.length [((1 # 2)%Q, 0%Q); (0%Q, 1%Q); (1%Q, 1%Q)]
  = List.length [point_text "Shop" 50 0; point_text "12" 0 0;
                 point_text "SHOP" 200 0]
  /\ exists data,
       make_data [((1 # 2)%Q, 0%Q); (0%Q, 1%Q); (1%Q, 1%Q)]
         (text_labels lower
            [point_text "Shop" 50 0; point_text "12" 0 0;
             point_text "SHOP" 200 0])
       = inr data
       /\ map col_text (data_text_unique isalpha data) = ["shop"].
Proof.
  split; [reflexivity|].
  destruct (data_text_unique_is_vocabulary lower isalpha
              [((1 # 2)%Q, 0%Q); (0%Q, 1%Q); (1%Q, 1%Q)]
              [point_text "Shop" 50 0; point_text "12" 0 0;
               point_text "SHOP" 200 0] eq_refl)
    as [data [E [_ Ht]]].
  exists data. split; [exact E|]. rewrite Ht. reflexivity.
Defined.

(** X15: for ASCII labels lowercasing does not change whether a label is
    alphabetic, so the table of alphabetic labels shows, in order, the
    lowercased texts of exactly the detections whose original text is
    alphabetic; a label is alphabetic when it is not empty and all its
    characters are letters. *)
Theorem data_text_of_lowercased {G : Type}
    (embeddings_tsne : list (Q * Q)) (spotted_text : list (text_row G))
    (data : list data_row) :
  make_data embeddings_tsne (text_labels lower spotted_text) = inr data ->
  map col_text (data_text isalpha data)
  = map lower (filter isalpha (map text spotted_text)).
Proof.
  intros E. apply make_data_texts in E. destruct E as [Htexts _].
  unfold data_text.
  assert (Hmf : map col_text (filter (fun r => isalpha (col_text r)) data)
                = filter isalpha (map col_text data)).
  { clear. induction data as [|r data IH]; simpl.
    - reflexivity.
    - destruct (isalpha (col_text r)); simpl; now rewrite IH. }
  rewrite Hmf, Htexts. unfold text_labels.
  induction (map text spotted_text) as [|s l IH]; simpl.
  - reflexivity.
  - rewrite isalpha_lower. destruct (isalpha s); simpl; now rewrite IH.
Qed.

Lemma data_text_of_lowercased_witness :
  map col_text
    (data_text isalpha
       [{| col_x := 1 # 2; col_y := 0; col_text := "shop" |};
        {| col_x := 0; col_y := 1; col_text := "st. john" |}])
  = map lower
      (filter isalpha
         (map text [point_text "Shop" 50 0; point_text "St. John" 0 0])).
Proof.
  exact (data_text_of_lowercased
           [((1 # 2)%Q, 0%Q); (0%Q, 1%Q)]
           [point_text "Shop" 50 0; point_text "St. John" 0 0]
           _ eq_refl).
Defined.

(** ** Balance of the ranking *)

